(** * A shallow embedding of DFA.c

    The C program simulates a deterministic finite automaton: [createDFA]
    allocates the automaton with an empty transition table, [addTransition]
    fills one cell of the table, [indexOf] searches the alphabet and
    [checkString] runs the automaton on a string.

    Conventions of the embedding:
    - an [int] is a [Z]; where the program does arithmetic on it the 32-bit
      two's complement wrap-around is written out ([Int.wrap]);
    - an array is a list, read and written by index; an access outside the
      allocated cells is the fault [OutOfBounds];
    - a cell of the transition table is an [option Z]: [None] is the
      indeterminate content [malloc] leaves behind, and reading it is the
      fault [Uninitialized];
    - a [char *] string is the list of the characters of its buffer, the
      terminating NUL being implicit at the end of the list;
    - functions that take a [DFA *] are computations in a state and error
      monad over the record [DFA];
    - [malloc] is taken to succeed;
    - of [main], the loops that read the transition table and the answer
      printed for a string are embedded, the values that [scanf] stores
      being parameters. *)

From Stdlib Require Import ZArith Ascii String Lia.
From stdpp Require Import base tactics option numbers list strings.

Local Open Scope Z_scope.

(** ** Machine integers *)

Module Int.

Definition INT_MAX : Z := 2147483647.
Definition INT_MIN : Z := -2147483648.
Definition modulus : Z := 4294967296.

(** The value an [int] holds after an operation whose mathematical result
    is [z]. *)
Definition wrap (z : Z) : Z := (z - INT_MIN) `mod` modulus + INT_MIN.

Definition in_range (z : Z) : Prop := INT_MIN <= z <= INT_MAX.

End Int.

(** ** Faults and results *)

Inductive fault : Type :=
| OutOfBounds
| Uninitialized.

Inductive res (A : Type) : Type :=
| Ok (a : A)
| Fault (f : fault).

Arguments Ok {A} a.
Arguments Fault {A} f.

Definition res_bind {A B : Type} (r : res A) (k : A -> res B) : res B :=
  match r with
  | Ok a => k a
  | Fault f => Fault f
  end.

Notation "x <~ r ;; k" := (res_bind r (fun x => k))
  (at level 100, r at next level, right associativity).

(** [a[i]] for an array [a] and an [int] index [i]. *)
Definition load {A : Type} (a : list A) (i : Z) : res A :=
  if i <? 0 then Fault OutOfBounds
  else match a !! Z.to_nat i with
       | Some x => Ok x
       | None => Fault OutOfBounds
       end.

(** [a[i] = x]. *)
Definition store {A : Type} (a : list A) (i : Z) (x : A) : res (list A) :=
  if i <? 0 then Fault OutOfBounds
  else if i <? Z.of_nat (length a) then Ok (<[Z.to_nat i := x]> a)
  else Fault OutOfBounds.

(** ** C strings *)

Definition NUL : ascii := "000"%char.

Fixpoint strlen (s : list ascii) : nat :=
  match s with
  | [] => O
  | c :: s' => if Ascii.eqb c NUL then O else S (strlen s')
  end.

(** The characters of a C string: those before the first NUL. *)
Definition symbols (s : list ascii) : list ascii := take (strlen s) s.

(** [s[i]], the buffer of [s] being its characters and the terminator. *)
Definition char_at (s : list ascii) (i : Z) : res ascii := load (s ++ [NUL]) i.

Definition cstr (s : string) : list ascii := list_ascii_of_string s.

(** ** The automaton *)

Definition ERROR_INCOMPLETE_TABLE : Z := -22.
Definition ERROR_INVALID_CHARACTER_IN_INPUT : Z := -20.

Record DFA : Type := mkDFA {
  characters : Z;
  states : Z;
  initialState : Z;
  numberOfFinalStates : Z;
  finalStates : list Z;
  incompleteCells : Z;
  characterSet : list ascii;
  transitionTable : list (list (option Z))
}.

Definition set_incompleteCells (v : Z) (d : DFA) : DFA :=
  mkDFA (characters d) (states d) (initialState d) (numberOfFinalStates d)
        (finalStates d) v (characterSet d) (transitionTable d).

Definition set_transitionTable (t : list (list (option Z))) (d : DFA) : DFA :=
  mkDFA (characters d) (states d) (initialState d) (numberOfFinalStates d)
        (finalStates d) (incompleteCells d) (characterSet d) t.

(** [table[q][k]] as an rvalue: both indices in bounds and the cell written
    before. *)
Definition load_cell (t : list (list (option Z))) (q k : Z) : res Z :=
  row <~ load t q ;;
  cell <~ load row k ;;
  match cell with
  | Some v => Ok v
  | None => Fault Uninitialized
  end.

(** [table[q][k] = v]. *)
Definition store_cell (t : list (list (option Z))) (q k v : Z)
  : res (list (list (option Z))) :=
  row <~ load t q ;;
  row' <~ store row k (Some v) ;;
  store t q row'.

(** ** Computations on a [DFA *] *)

Definition M (A : Type) : Type := DFA -> res (A * DFA).

Definition ret {A : Type} (a : A) : M A := fun d => Ok (a, d).

Definition bind {A B : Type} (m : M A) (k : A -> M B) : M B :=
  fun d => match m d with
           | Ok (a, d') => k a d'
           | Fault f => Fault f
           end.

Notation "x <- m ;; k" := (bind m (fun x => k))
  (at level 100, m at next level, right associativity).
Notation "m ;;; k" := (bind m (fun _ => k))
  (at level 100, right associativity).

(** [dfa->field] read. *)
Definition get {A : Type} (field : DFA -> A) : M A := fun d => Ok (field d, d).

(** A write through the pointer. *)
Definition put (f : DFA -> DFA) : M unit := fun d => Ok (tt, f d).

(** A memory access that may fault. *)
Definition lift {A : Type} (r : res A) : M A :=
  fun d => match r with
           | Ok a => Ok (a, d)
           | Fault f => Fault f
           end.

(** *** createDFA *)

(** [for (i = i0; i < i0 + n; i++) dst[i] = src[i]], [dst] having exactly
    the cells the loop writes. *)
Fixpoint copy_loop {A : Type} (src : list A) (n : nat) (i : Z) : res (list A) :=
  match n with
  | O => Ok []
  | S n' =>
      x <~ load src i ;;
      rest <~ copy_loop src n' (i + 1) ;;
      Ok (x :: rest)
  end.

Definition createDFA (chars : list ascii) (nStates initState nFinStates : Z)
    (finStates : list Z) : res DFA :=
  fs <~ copy_loop finStates (Z.to_nat nFinStates) 0 ;;
  let nChars := Int.wrap (Z.of_nat (strlen chars)) in
  cs <~ copy_loop (chars ++ [NUL]) (Z.to_nat nChars) 0 ;;
  Ok {| characters := nChars;
        states := nStates;
        initialState := initState;
        numberOfFinalStates := nFinStates;
        finalStates := fs;
        incompleteCells := Int.wrap (nStates * nChars);
        characterSet := cs;
        transitionTable :=
          replicate (Z.to_nat nStates) (replicate (Z.to_nat nChars) None) |}.

(** *** indexOf *)

(** The loop of [indexOf], [n] iterations from index [i] on.  [i] stays
    below [dfa->characters], so [++i] does not overflow. *)
Fixpoint indexOf_loop (c : ascii) (n : nat) (i : Z) : M Z :=
  match n with
  | O => ret (-1)
  | S n' =>
      cs <- get characterSet ;;
      x <- lift (load cs i) ;;
      if Ascii.eqb c x then ret i else indexOf_loop c n' (i + 1)
  end.

Definition indexOf (c : ascii) : M Z :=
  n <- get characters ;;
  indexOf_loop c (Z.to_nat n) 0.

(** *** addTransition *)

Definition addTransition (initState : Z) (inp : ascii) (finalState : Z) : M unit :=
  index <- indexOf inp ;;
  if index <? 0 then ret tt
  else
    t <- get transitionTable ;;
    t' <- lift (store_cell t initState index finalState) ;;
    put (set_transitionTable t') ;;;
    n <- get incompleteCells ;;
    put (set_incompleteCells (Int.wrap (n - 1))).

(** *** checkString *)

(** The first loop of [checkString]: [inl v] when the function returns [v]
    from inside the loop, [inr state] when the loop runs to its end. *)
Fixpoint checkString_scan (inp : list ascii) (n : nat) (i state : Z) : M (Z + Z) :=
  match n with
  | O => ret (inr state)
  | S n' =>
      c <- lift (char_at inp i) ;;
      index <- indexOf c ;;
      if index <? 0 then ret (inl ERROR_INVALID_CHARACTER_IN_INPUT)
      else
        t <- get transitionTable ;;
        state' <- lift (load_cell t state index) ;;
        checkString_scan inp n' (i + 1) state'
  end.

(** The second loop: the flag [index] it leaves, 1 when [state] is found
    among the final states and 0 otherwise. *)
Fixpoint checkString_final (state : Z) (n : nat) (i : Z) : M Z :=
  match n with
  | O => ret 0
  | S n' =>
      fs <- get finalStates ;;
      f <- lift (load fs i) ;;
      if state =? f then ret 1 else checkString_final state n' (i + 1)
  end.

Definition checkString (inp : list ascii) : M Z :=
  cells <- get incompleteCells ;;
  if negb (cells =? 0) then ret ERROR_INCOMPLETE_TABLE
  else
    state <- get initialState ;;
    let l := Int.wrap (Z.of_nat (strlen inp)) in
    r <- checkString_scan inp (Z.to_nat l) 0 state ;;
    match r with
    | inl v => ret v
    | inr state' =>
        n <- get numberOfFinalStates ;;
        checkString_final state' (Z.to_nat n) 0
    end.

(** A sequence of [addTransition] calls. *)
Fixpoint addTransitions (ts : list (Z * ascii * Z)) : M unit :=
  match ts with
  | [] => ret tt
  | (q, c, q') :: ts' => addTransition q c q' ;;; addTransitions ts'
  end.

(** ** The automaton of the binary multiples of three *)

Definition mod3_transitions : list (Z * ascii * Z) :=
  [(0, "0"%char, 0); (0, "1"%char, 1);
   (1, "0"%char, 2); (1, "1"%char, 0);
   (2, "0"%char, 1); (2, "1"%char, 2)].

Definition build (chars : string) (nStates initState : Z) (finStates : list Z)
    (ts : list (Z * ascii * Z)) : res DFA :=
  d <~ createDFA (cstr chars) nStates initState (Z.of_nat (length finStates)) finStates ;;
  match addTransitions ts d with
  | Ok (_, d') => Ok d'
  | Fault f => Fault f
  end.

Definition run_on (r : res DFA) (inp : string) : res Z :=
  d <~ r ;;
  match checkString (cstr inp) d with
  | Ok (v, _) => Ok v
  | Fault f => Fault f
  end.

(** ** The specification's reading of the automaton *)

(** The alphabet: the content of the character array. *)
Definition alphabet (d : DFA) : list ascii := characterSet d.

(** The shape [createDFA] gives the arrays and [addTransition] keeps: each
    array has as many cells as the count stored next to it. *)
Definition wf (d : DFA) : Prop :=
  length (characterSet d) = Z.to_nat (characters d) /\
  length (finalStates d) = Z.to_nat (numberOfFinalStates d) /\
  length (transitionTable d) = Z.to_nat (states d) /\
  Forall (fun row => length row = Z.to_nat (characters d)) (transitionTable d).

Module Spec.

Inductive Outcome : Type :=
| Accepted
| Rejected
| IncompleteTable
| InvalidSymbol.

(** The [int] by which [checkString] reports an outcome. *)
Definition code (o : Outcome) : Z :=
  match o with
  | Accepted => 1
  | Rejected => 0
  | IncompleteTable => ERROR_INCOMPLETE_TABLE
  | InvalidSymbol => ERROR_INVALID_CHARACTER_IN_INPUT
  end.

(** SymbolIndex: the first position of [c] in the alphabet, if any. *)
Fixpoint SymbolIndex (alphabet : list ascii) (c : ascii) : option nat :=
  match alphabet with
  | [] => None
  | x :: rest => if decide (c = x) then Some O else S <$> SymbolIndex rest c
  end.

(** The fold of the specification over the symbols of the input, from the
    state [current]: [None] when a symbol is not in the alphabet, the state
    reached otherwise.  A transition is the table cell, as the code reads
    it. *)
Fixpoint run (d : DFA) (current : Z) (input : list ascii) : res (option Z) :=
  match input with
  | [] => Ok (Some current)
  | c :: rest =>
      match SymbolIndex (alphabet d) c with
      | None => Ok None
      | Some k =>
          next <~ load_cell (transitionTable d) current (Z.of_nat k) ;;
          run d next rest
      end
  end.

(** Evaluation on a complete automaton. *)
Definition Evaluate (d : DFA) (input : list ascii) : res Outcome :=
  r <~ run d (initialState d) input ;;
  match r with
  | None => Ok InvalidSymbol
  | Some q => Ok (if decide (q ∈ finalStates d) then Accepted else Rejected)
  end.

Definition CheckString (d : DFA) (input : list ascii) : res Outcome :=
  if decide (incompleteCells d = 0) then Evaluate d input
  else Ok IncompleteTable.

End Spec.

(** ** Predicates and automata of the proofs *)

(** A computation that returns with the automaton it was given. *)
Definition read_only {A : Type} (m : M A) : Prop :=
  forall d a d', m d = Ok (a, d') -> d' = d.

(** The [int] by which [indexOf] reports a position or its absence. *)
Definition index_code (o : option nat) : Z :=
  match o with
  | Some k => Z.of_nat k
  | None => -1
  end.

(** How the first loop of [checkString] leaves, by the result of the fold. *)
Definition scan_result (d : DFA) (r : res (option Z)) : res ((Z + Z) * DFA) :=
  match r with
  | Ok (Some q) => Ok (inr q, d)
  | Ok None => Ok (inl ERROR_INVALID_CHARACTER_IN_INPUT, d)
  | Fault f => Fault f
  end.

(** The automaton of the binary multiples of three, as [createDFA] and six
    calls of [addTransition] leave it. *)
Definition mod3 : DFA :=
  {| characters := 2;
     states := 3;
     initialState := 0;
     numberOfFinalStates := 1;
     finalStates := [0];
     incompleteCells := 0;
     characterSet := cstr "01";
     transitionTable := [[Some 0; Some 1]; [Some 2; Some 0]; [Some 1; Some 2]] |}.

(** The same automaton right after [createDFA]. *)
Definition mod3_empty : DFA :=
  {| characters := 2;
     states := 3;
     initialState := 0;
     numberOfFinalStates := 1;
     finalStates := [0];
     incompleteCells := 6;
     characterSet := cstr "01";
     transitionTable := [[None; None]; [None; None]; [None; None]] |}.

(** Two states over the alphabet "a", after [addTransition(0, 'a', 0)] and
    [addTransition(0, 'a', 1)]: the cell of state 1 was never written. *)
Definition twice : DFA :=
  {| characters := 1;
     states := 2;
     initialState := 0;
     numberOfFinalStates := 1;
     finalStates := [0];
     incompleteCells := 0;
     characterSet := cstr "a";
     transitionTable := [[Some 1]; [None]] |}.

(** One state over the alphabet "a", after two calls of
    [addTransition(0, 'a', 0)]: the only cell is written. *)
Definition over : DFA :=
  {| characters := 1;
     states := 1;
     initialState := 0;
     numberOfFinalStates := 1;
     finalStates := [0];
     incompleteCells := -1;
     characterSet := cstr "a";
     transitionTable := [[Some 0]] |}.

(** The automaton [twice] right after [createDFA]. *)
Definition two_states_empty : DFA :=
  {| characters := 1;
     states := 2;
     initialState := 0;
     numberOfFinalStates := 1;
     finalStates := [0];
     incompleteCells := 2;
     characterSet := cstr "a";
     transitionTable := [[None]; [None]] |}.

(** Every cell holds a state of the automaton, and so does the initial
    state. *)
Definition closed (d : DFA) : Prop :=
  0 <= initialState d < states d /\
  Forall (Forall (fun cell => exists v, cell = Some v /\ 0 <= v < states d))
         (transitionTable d).

(** The content of the cell of state [q] and column [k], when the table
    has such a cell: [None] inside is a cell never written. *)
Definition cell (d : DFA) (q k : nat) : option (option Z) :=
  row ← transitionTable d !! q; row !! k.

(** Two automata with the same fields apart from the table and the
    counter. *)
Definition same_parameters (d d' : DFA) : Prop :=
  characters d' = characters d /\
  states d' = states d /\
  initialState d' = initialState d /\
  numberOfFinalStates d' = numberOfFinalStates d /\
  finalStates d' = finalStates d /\
  characterSet d' = characterSet d.

(** The state that the calls [ts], made in this order, register last for the
    cell of state [q] and column [k], if any of them registers one. *)
Fixpoint registered (al : list ascii) (ts : list (Z * ascii * Z)) (q k : nat)
  : option Z :=
  match ts with
  | [] => None
  | (q', c, v) :: ts' =>
      match registered al ts' q k with
      | Some w => Some w
      | None =>
          if decide (q' = Z.of_nat q /\ Spec.SymbolIndex al c = Some k)
          then Some v else None
      end
  end.

(** A call of [addTransition] with a state of the automaton and a symbol of
    its alphabet. *)
Definition in_table (d : DFA) (t : Z * ascii * Z) : Prop :=
  0 <= t.1.1 < states d /\ t.1.2 ∈ alphabet d.

Definition set_initialState (q : Z) (d : DFA) : DFA :=
  mkDFA (characters d) (states d) q (numberOfFinalStates d)
        (finalStates d) (incompleteCells d) (characterSet d) (transitionTable d).

(** What a call returns, without the automaton. *)
Definition returned {A : Type} (r : res (A * DFA)) : res A :=
  match r with
  | Ok (a, _) => Ok a
  | Fault f => Fault f
  end.

(** One state over the alphabet "aa", whose two characters are the same,
    right after [createDFA] and after two calls
    [addTransition(0, 'a', 0)]. *)
Definition repeated_empty : DFA :=
  {| characters := 2; states := 1; initialState := 0;
     numberOfFinalStates := 0; finalStates := [];
     incompleteCells := 2; characterSet := cstr "aa";
     transitionTable := [[None; None]] |}.

Definition repeated_filled : DFA :=
  {| characters := 2; states := 1; initialState := 0;
     numberOfFinalStates := 0; finalStates := [];
     incompleteCells := 0; characterSet := cstr "aa";
     transitionTable := [[Some 0; None]] |}.

(** One state over the alphabet "01", with the target 5 registered for
    '1'. *)
Definition stray : DFA :=
  {| characters := 2; states := 1; initialState := 0;
     numberOfFinalStates := 0; finalStates := [];
     incompleteCells := 0; characterSet := cstr "01";
     transitionTable := [[Some 0; Some 5]] |}.

(** One state over the alphabet "a", made with [nFinStates] -1. *)
Definition no_final : DFA :=
  {| characters := 1; states := 1; initialState := 0;
     numberOfFinalStates := -1; finalStates := [];
     incompleteCells := 0; characterSet := cstr "a";
     transitionTable := [[Some 0]] |}.

(** ** The driver *)

(** The inner loop of [main] over the columns of row [i], [n] iterations
    from column [j] on.  [characterSet] holds the cells of the buffer of
    [main], and [typed i j] is the value its variable [initialState] holds
    after the [scanf] of that iteration. *)
Fixpoint main_fill_row (characterSet : list ascii) (typed : Z -> Z -> Z)
    (i : Z) (n : nat) (j : Z) : M unit :=
  match n with
  | O => ret tt
  | S n' =>
      c <- lift (load characterSet j) ;;
      addTransition i c (typed i j) ;;;
      main_fill_row characterSet typed i n' (j + 1)
  end.

(** The outer loop over the rows, [n] iterations from row [i] on. *)
Fixpoint main_fill_rows (characterSet : list ascii) (typed : Z -> Z -> Z)
    (characters : Z) (n : nat) (i : Z) : M unit :=
  match n with
  | O => ret tt
  | S n' =>
      main_fill_row characterSet typed i (Z.to_nat characters) 0 ;;;
      main_fill_rows characterSet typed characters n' (i + 1)
  end.

(** The two loops of [main] that read the transition table. *)
Definition main_fill (states characters : Z) (characterSet : list ascii)
    (typed : Z -> Z -> Z) : M unit :=
  main_fill_rows characterSet typed characters (Z.to_nat states) 0.



(** The calls of [addTransition] that the inner loop of [main] makes for
    row [i] over the characters [cs], the first being at column [j], and those
    the outer loop makes over [n] rows from row [i] on. *)
Fixpoint row_calls (typed : Z -> Z -> Z) (i : Z) (cs : list ascii) (j : Z)
  : list (Z * ascii * Z) :=
  match cs with
  | [] => []
  | c :: cs' => (i, c, typed i j) :: row_calls typed i cs' (j + 1)
  end.

Fixpoint table_calls (typed : Z -> Z -> Z) (cs : list ascii) (n : nat) (i : Z)
  : list (Z * ascii * Z) :=
  match n with
  | O => []
  | S n' => row_calls typed i cs 0 ++ table_calls typed cs n' (i + 1)
  end.

(** The run of the automaton whose transition from state [q] on the symbol
    at position [k] of the alphabet is [typed q k]: the state reached from
    [q] on the symbols [syms], [None] when one of them is not in the
    alphabet. *)
Fixpoint typed_run (typed : Z -> Z -> Z) (al : list ascii) (q : Z)
    (syms : list ascii) : option Z :=
  match syms with
  | [] => Some q
  | c :: rest =>
      match Spec.SymbolIndex al c with
      | None => None
      | Some k => typed_run typed al (typed q (Z.of_nat k)) rest
      end
  end.

(** ** Arrays *)

Lemma load_Ok {A : Type} (a : list A) (i : nat) (x : A) :
  a !! i = Some x -> load a (Z.of_nat i) = Ok x.
Proof.
  intros H. unfold load.
  destruct (Z.ltb_spec (Z.of_nat i) 0) as [Hlt | _]; [lia |].
  rewrite Nat2Z.id, H. reflexivity.
Qed.

Lemma load_inv {A : Type} (a : list A) (i : Z) (x : A) :
  load a i = Ok x -> 0 <= i /\ a !! Z.to_nat i = Some x.
Proof.
  unfold load. destruct (Z.ltb_spec i 0) as [Hlt | Hge]; [discriminate |].
  destruct (a !! Z.to_nat i) eqn:E; [| discriminate].
  intros [= ->]. split; [lia | reflexivity].
Qed.

Lemma store_inv {A : Type} (a a' : list A) (i : Z) (x : A) :
  store a i x = Ok a' ->
  0 <= i < Z.of_nat (length a) /\ a' = <[Z.to_nat i := x]> a.
Proof.
  unfold store. destruct (Z.ltb_spec i 0) as [Hlt | Hge]; [discriminate |].
  destruct (Z.ltb_spec i (Z.of_nat (length a))) as [Hlt | Hge']; [| discriminate].
  intros [= <-]. split; [lia | reflexivity].
Qed.

Lemma store_Ok {A : Type} (a : list A) (i : nat) (x : A) :
  (i < length a)%nat -> store a (Z.of_nat i) x = Ok (<[i := x]> a).
Proof.
  intros H. unfold store.
  destruct (Z.ltb_spec (Z.of_nat i) 0) as [Hlt | _]; [lia |].
  destruct (Z.ltb_spec (Z.of_nat i) (Z.of_nat (length a))) as [_ | Hge]; [| lia].
  rewrite Nat2Z.id. reflexivity.
Qed.

(** ** Strings *)

Lemma strlen_le (s : list ascii) : (strlen s <= length s)%nat.
Proof.
  induction s as [| c s IH]; simpl; [lia |].
  destruct (Ascii.eqb c NUL); lia.
Qed.

Lemma symbols_length (s : list ascii) : length (symbols s) = strlen s.
Proof. unfold symbols. rewrite length_take. pose proof (strlen_le s). lia. Qed.

Lemma symbols_lookup (s pre rest : list ascii) (c : ascii) :
  symbols s = pre ++ c :: rest -> s !! length pre = Some c.
Proof.
  unfold symbols. intros H.
  assert (Hl : take (strlen s) s !! length pre = Some c).
  { rewrite H. rewrite lookup_app_r by lia. rewrite Nat.sub_diag. reflexivity. }
  apply lookup_take_Some in Hl. tauto.
Qed.

Lemma char_at_symbols (s pre rest : list ascii) (c : ascii) :
  symbols s = pre ++ c :: rest -> char_at s (Z.of_nat (length pre)) = Ok c.
Proof.
  intros H. unfold char_at. apply load_Ok.
  apply lookup_app_l_Some. eapply symbols_lookup, H.
Qed.

(** ** SymbolIndex *)

Lemma SymbolIndex_None (l : list ascii) (c : ascii) :
  Spec.SymbolIndex l c = None <-> c ∉ l.
Proof.
  induction l as [| x l IH]; simpl.
  - split; [intros _; apply not_elem_of_nil | reflexivity].
  - destruct (decide (c = x)) as [-> | Hne].
    + split; [discriminate | intros H; exfalso; apply H; left].
    + rewrite fmap_None, IH, not_elem_of_cons. tauto.
Qed.

Lemma SymbolIndex_Some (l : list ascii) (c : ascii) (k : nat) :
  Spec.SymbolIndex l c = Some k <->
  l !! k = Some c /\ forall j, (j < k)%nat -> l !! j <> Some c.
Proof.
  revert k. induction l as [| x l IH]; intros k; simpl.
  - split; [discriminate | intros [H _]; discriminate].
  - destruct (decide (c = x)) as [-> | Hne].
    + split.
      * intros [= <-]. split; [reflexivity | intros j Hj; lia].
      * intros [Hk Hfirst]. destruct k as [| k]; [reflexivity |].
        exfalso. apply (Hfirst O); [lia | reflexivity].
    + rewrite fmap_Some. split.
      * intros (k' & Hk' & ->). apply IH in Hk' as [Hk' Hfirst].
        split; [exact Hk' |]. intros [| j] Hj; simpl.
        -- congruence.
        -- apply Hfirst. lia.
      * intros [Hk Hfirst]. destruct k as [| k]; simpl in Hk; [congruence |].
        exists k. split; [| reflexivity]. apply IH. split; [exact Hk |].
        intros j Hj. apply (Hfirst (S j)). lia.
Qed.

Lemma SymbolIndex_is_Some (l : list ascii) (c : ascii) :
  c ∈ l -> exists k, Spec.SymbolIndex l c = Some k.
Proof.
  intros H. destruct (Spec.SymbolIndex l c) as [k |] eqn:E; [eauto |].
  apply SymbolIndex_None in E. contradiction.
Qed.

(** ** Computations that leave the automaton as it is *)

Lemma read_only_ret {A : Type} (a : A) : read_only (ret a).
Proof. intros d a' d' [= _ <-]. reflexivity. Qed.

Lemma read_only_get {A : Type} (field : DFA -> A) : read_only (get field).
Proof. intros d a d' [= _ <-]. reflexivity. Qed.

Lemma read_only_lift {A : Type} (r : res A) : read_only (lift r).
Proof. intros d a d'. unfold lift. destruct r; [intros [= _ <-] |]; done. Qed.

Lemma read_only_bind {A B : Type} (m : M A) (k : A -> M B) :
  read_only m -> (forall a, read_only (k a)) -> read_only (bind m k).
Proof.
  intros Hm Hk d b d'. unfold bind.
  destruct (m d) as [[a d1] | f] eqn:E; [| discriminate].
  apply Hm in E as ->. apply Hk.
Qed.

Create HintDb read_only.
#[local] Hint Resolve read_only_ret read_only_get read_only_lift : read_only.

Ltac read_only_step :=
  repeat first [ solve [auto with read_only]
               | apply read_only_bind; [| intros ?] ].

Ltac case_if :=
  match goal with
  | |- context [if ?b then _ else _] => destruct b
  end.

Lemma indexOf_loop_read_only (c : ascii) (n : nat) (i : Z) :
  read_only (indexOf_loop c n i).
Proof.
  revert i. induction n as [| n IH]; intros i; simpl.
  - apply read_only_ret.
  - read_only_step. case_if; auto with read_only.
Qed.

Lemma indexOf_read_only (c : ascii) : read_only (indexOf c).
Proof. unfold indexOf. read_only_step. apply indexOf_loop_read_only. Qed.

#[local] Hint Resolve indexOf_read_only : read_only.

Lemma checkString_scan_read_only (inp : list ascii) (n : nat) (i state : Z) :
  read_only (checkString_scan inp n i state).
Proof.
  revert i state. induction n as [| n IH]; intros i state; simpl.
  - apply read_only_ret.
  - read_only_step. case_if; [auto with read_only |].
    read_only_step.
Qed.

Lemma checkString_final_read_only (state : Z) (n : nat) (i : Z) :
  read_only (checkString_final state n i).
Proof.
  revert i. induction n as [| n IH]; intros i; simpl.
  - apply read_only_ret.
  - read_only_step. case_if; auto with read_only.
Qed.

Lemma checkString_read_only (inp : list ascii) : read_only (checkString inp).
Proof.
  unfold checkString. read_only_step.
  case_if; [auto with read_only |].
  read_only_step.
  - apply checkString_scan_read_only.
  - match goal with r : (Z + Z)%type |- _ => destruct r end.
    + apply read_only_ret.
    + read_only_step. apply checkString_final_read_only.
Qed.

(** ** indexOf is the linear search *)

Lemma indexOf_loop_spec (d : DFA) (c : ascii) (pre rest : list ascii) :
  characterSet d = pre ++ rest ->
  indexOf_loop c (length rest) (Z.of_nat (length pre)) d =
  Ok (index_code ((fun k => length pre + k)%nat <$> Spec.SymbolIndex rest c), d).
Proof.
  revert pre. induction rest as [| x rest IH]; intros pre Hcs; simpl.
  - reflexivity.
  - unfold bind at 1, get. unfold bind at 1.
    rewrite (load_Ok (characterSet d) (length pre) x)
      by (rewrite Hcs; apply list_lookup_middle; reflexivity).
    simpl. destruct (Ascii.eqb_spec c x) as [-> | Hne].
    + rewrite decide_True by reflexivity. simpl.
      rewrite Nat.add_0_r. reflexivity.
    + rewrite decide_False by exact Hne.
      replace (Z.of_nat (length pre) + 1) with (Z.of_nat (length (pre ++ [x])))
        by (rewrite length_app; simpl; lia).
      rewrite IH by (rewrite <- app_assoc; exact Hcs).
      rewrite <- option_fmap_compose. do 3 f_equal.
      destruct (Spec.SymbolIndex rest c); simpl; [| reflexivity].
      rewrite length_app. simpl. f_equal. lia.
Qed.

Lemma indexOf_spec (d : DFA) (c : ascii) :
  wf d -> indexOf c d = Ok (index_code (Spec.SymbolIndex (alphabet d) c), d).
Proof.
  intros (Hcs & _). unfold indexOf, bind, get. rewrite <- Hcs.
  pose proof (indexOf_loop_spec d c [] (characterSet d) eq_refl) as H.
  change (Z.of_nat (length [])) with 0 in H. rewrite H. unfold alphabet.
  destruct (Spec.SymbolIndex (characterSet d) c); reflexivity.
Qed.

(** ** Machine integers *)

Lemma wrap_in_range (z : Z) : Int.in_range z -> Int.wrap z = z.
Proof.
  unfold Int.in_range, Int.wrap, Int.INT_MIN, Int.INT_MAX, Int.modulus.
  intros H. rewrite Z.mod_small by lia. lia.
Qed.

Lemma wrap_pred_neq (z : Z) : Int.wrap (z - 1) <> z.
Proof.
  unfold Int.wrap, Int.INT_MIN, Int.modulus. intros H.
  pose proof (Z.div_mod (z - 1 - -2147483648) 4294967296 ltac:(lia)) as E.
  lia.
Qed.

(** ** checkString is the fold of the specification *)

Lemma checkString_final_spec (d : DFA) (state : Z) (pre rest : list Z) :
  finalStates d = pre ++ rest ->
  checkString_final state (length rest) (Z.of_nat (length pre)) d =
  Ok (if decide (state ∈ rest) then 1 else 0, d).
Proof.
  revert pre. induction rest as [| f rest IH]; intros pre Hfs; simpl.
  - unfold ret. destruct (decide (state ∈ [])) as [Hin | _]; [| reflexivity].
    apply not_elem_of_nil in Hin. contradiction.
  - unfold bind at 1, get. unfold bind at 1.
    rewrite (load_Ok (finalStates d) (length pre) f)
      by (rewrite Hfs; apply list_lookup_middle; reflexivity).
    simpl. destruct (Z.eqb_spec state f) as [-> | Hne].
    + rewrite decide_True by left. reflexivity.
    + replace (Z.of_nat (length pre) + 1) with (Z.of_nat (length (pre ++ [f])))
        by (rewrite length_app; simpl; lia).
      rewrite IH by (rewrite <- app_assoc; exact Hfs).
      destruct (decide (state ∈ rest)) as [Hin | Hnin].
      * rewrite decide_True by (right; exact Hin). reflexivity.
      * rewrite decide_False; [reflexivity |].
        rewrite not_elem_of_cons. tauto.
Qed.

Lemma checkString_scan_spec (d : DFA) (inp pre rest : list ascii) (state : Z) :
  wf d ->
  symbols inp = pre ++ rest ->
  checkString_scan inp (length rest) (Z.of_nat (length pre)) state d =
  scan_result d (Spec.run d state rest).
Proof.
  intros Hwf. revert pre state.
  induction rest as [| c rest IH]; intros pre state Hsym; simpl.
  - reflexivity.
  - unfold bind at 1, lift at 1.
    rewrite (char_at_symbols inp pre rest c Hsym).
    unfold bind at 1. rewrite (indexOf_spec d c Hwf).
    destruct (Spec.SymbolIndex (alphabet d) c) as [k |]; simpl; [| reflexivity].
    destruct (Z.ltb_spec (Z.of_nat k) 0) as [Hlt | _]; [lia |].
    unfold bind at 1, get. unfold bind at 1, lift.
    destruct (load_cell (transitionTable d) state (Z.of_nat k)) as [q | f];
      simpl; [| reflexivity].
    replace (Z.of_nat (length pre) + 1) with (Z.of_nat (length (pre ++ [c])))
      by (rewrite length_app; simpl; lia).
    apply IH. rewrite <- app_assoc. exact Hsym.
Qed.

Lemma checkString_spec (d : DFA) (inp : list ascii) :
  wf d ->
  Z.of_nat (strlen inp) <= Int.INT_MAX ->
  checkString inp d =
  (o <~ Spec.CheckString d (symbols inp) ;; Ok (Spec.code o, d)).
Proof.
  intros Hwf Hlen. unfold checkString, Spec.CheckString.
  unfold bind at 1, get.
  destruct (Z.eqb_spec (incompleteCells d) 0) as [Hz | Hnz]; simpl.
  - rewrite decide_True by exact Hz.
    unfold bind at 1. unfold bind at 1.
    rewrite wrap_in_range by (unfold Int.in_range, Int.INT_MIN, Int.INT_MAX in *; lia).
    rewrite Nat2Z.id, <- symbols_length.
    pose proof (checkString_scan_spec d inp [] (symbols inp) (initialState d)
                  Hwf eq_refl) as Hscan.
    change (Z.of_nat (length [])) with 0 in Hscan. rewrite Hscan.
    unfold Spec.Evaluate.
    destruct (Spec.run d (initialState d) (symbols inp)) as [[q |] | f];
      simpl; [| reflexivity | reflexivity].
    unfold bind, get. destruct Hwf as (_ & Hfs & _). rewrite <- Hfs.
    pose proof (checkString_final_spec d q [] (finalStates d) eq_refl) as Hfin.
    change (Z.of_nat (length [])) with 0 in Hfin. rewrite Hfin.
    destruct (decide (q ∈ finalStates d)); reflexivity.
  - rewrite decide_False by exact Hnz. reflexivity.
Qed.

(** ** The table and its shape *)

Lemma store_cell_inv (t t' : list (list (option Z))) (q k v : Z) :
  store_cell t q k v = Ok t' ->
  exists row,
    0 <= q /\ t !! Z.to_nat q = Some row /\
    0 <= k < Z.of_nat (length row) /\
    t' = <[Z.to_nat q := <[Z.to_nat k := Some v]> row]> t.
Proof.
  unfold store_cell. destruct (load t q) as [row | f] eqn:Hrow; [| discriminate].
  simpl. destruct (store row k (Some v)) as [row' | f] eqn:Hst; [| discriminate].
  simpl. intros Ht.
  apply load_inv in Hrow as [Hq Hrow]. apply store_inv in Hst as [Hk ->].
  apply store_inv in Ht as [_ ->]. exists row. auto.
Qed.

Lemma store_cell_Ok (t : list (list (option Z))) (row : list (option Z))
    (q k : nat) (v : Z) :
  t !! q = Some row -> (k < length row)%nat ->
  store_cell t (Z.of_nat q) (Z.of_nat k) v = Ok (<[q := <[k := Some v]> row]> t).
Proof.
  intros Hrow Hk. unfold store_cell. rewrite (load_Ok t q row Hrow). simpl.
  rewrite store_Ok by exact Hk. simpl.
  apply store_Ok. eapply lookup_lt_Some, Hrow.
Qed.

Lemma load_cell_stored (t : list (list (option Z))) (row : list (option Z))
    (q k : nat) (v : Z) :
  t !! q = Some row -> (k < length row)%nat ->
  load_cell (<[q := <[k := Some v]> row]> t) (Z.of_nat q) (Z.of_nat k) = Ok v.
Proof.
  intros Hrow Hk. unfold load_cell.
  rewrite (load_Ok _ q (<[k := Some v]> row)).
  - simpl. rewrite (load_Ok _ k (Some v)); [reflexivity |].
    apply list_lookup_insert_eq. exact Hk.
  - apply list_lookup_insert_eq. eapply lookup_lt_Some, Hrow.
Qed.

Lemma copy_loop_length {A : Type} (src dst : list A) (n : nat) (i : Z) :
  copy_loop src n i = Ok dst -> length dst = n.
Proof.
  revert dst i. induction n as [| n IH]; intros dst i; simpl.
  - intros [= <-]. reflexivity.
  - destruct (load src i) as [x | f]; [| discriminate]. simpl.
    destruct (copy_loop src n (i + 1)) as [rest | f] eqn:E; [| discriminate].
    simpl. intros [= <-]. simpl. f_equal. eapply IH, E.
Qed.

Lemma createDFA_wf (chars : list ascii) (nStates initState nFinStates : Z)
    (finStates : list Z) (d : DFA) :
  createDFA chars nStates initState nFinStates finStates = Ok d -> wf d.
Proof.
  unfold createDFA.
  destruct (copy_loop finStates _ 0) as [fs | f] eqn:Hfs; [| discriminate].
  simpl.
  destruct (copy_loop (chars ++ [NUL]) _ 0) as [cs | f] eqn:Hcs; [| discriminate].
  simpl. intros [= <-]. unfold wf. simpl.
  apply copy_loop_length in Hfs, Hcs.
  repeat split; [exact Hcs | exact Hfs | apply length_replicate |].
  apply Forall_replicate, length_replicate.
Qed.

Lemma set_table_wf (d : DFA) (row : list (option Z)) (q k : nat) (v n : Z) :
  wf d -> transitionTable d !! q = Some row ->
  wf (set_incompleteCells n
        (set_transitionTable (<[q := <[k := Some v]> row]> (transitionTable d)) d)).
Proof.
  intros (Hcs & Hfs & Ht & Hrows) Hrow. unfold wf. simpl.
  repeat split; [exact Hcs | exact Hfs | rewrite length_insert; exact Ht |].
  apply Forall_insert; [exact Hrows |].
  rewrite length_insert.
  eapply (proj1 (Forall_lookup _ _) Hrows), Hrow.
Qed.

(** What a call of [addTransition] does, by the symbol it is given. *)
Lemma addTransition_inv (d d' : DFA) (q : Z) (c : ascii) (v : Z) (u : unit) :
  wf d ->
  addTransition q c v d = Ok (u, d') ->
  ((c ∉ alphabet d) /\ d' = d) \/
  (exists k row,
    Spec.SymbolIndex (alphabet d) c = Some k /\
    0 <= q /\ transitionTable d !! Z.to_nat q = Some row /\
    d' = set_incompleteCells (Int.wrap (incompleteCells d - 1))
           (set_transitionTable
              (<[Z.to_nat q := <[k := Some v]> row]> (transitionTable d)) d)).
Proof.
  intros Hwf. destruct u. unfold addTransition. unfold bind at 1.
  rewrite (indexOf_spec d c Hwf).
  destruct (Spec.SymbolIndex (alphabet d) c) as [k |] eqn:Hk; simpl.
  - destruct (Z.ltb_spec (Z.of_nat k) 0) as [Hlt | _]; [lia |].
    unfold bind at 1, get. unfold bind at 1, lift.
    destruct (store_cell (transitionTable d) q (Z.of_nat k) v) as [t' | f] eqn:Hst;
      [| discriminate].
    unfold bind, put, get. intros [= <-]. right.
    apply store_cell_inv in Hst as (row & Hq & Hrow & _ & ->).
    rewrite Nat2Z.id. exists k, row. auto.
  - intros [= <-]. left. split; [| reflexivity].
    apply SymbolIndex_None. exact Hk.
Qed.

Lemma addTransition_wf (d d' : DFA) (q : Z) (c : ascii) (v : Z) (u : unit) :
  wf d -> addTransition q c v d = Ok (u, d') -> wf d'.
Proof.
  intros Hwf H. apply addTransition_inv in H as [[_ ->] | H]; [exact Hwf | | exact Hwf].
  destruct H as (k & row & _ & _ & Hrow & ->).
  apply set_table_wf; assumption.
Qed.

Lemma addTransition_known (d : DFA) (q k : nat) (c : ascii) (v : Z)
    (row : list (option Z)) :
  wf d ->
  Spec.SymbolIndex (alphabet d) c = Some k ->
  transitionTable d !! q = Some row ->
  addTransition (Z.of_nat q) c v d =
  Ok (tt, set_incompleteCells (Int.wrap (incompleteCells d - 1))
            (set_transitionTable
               (<[q := <[k := Some v]> row]> (transitionTable d)) d)).
Proof.
  intros Hwf Hk Hrow. unfold addTransition. unfold bind at 1.
  rewrite (indexOf_spec d c Hwf), Hk. simpl.
  destruct (Z.ltb_spec (Z.of_nat k) 0) as [Hlt | _]; [lia |].
  unfold bind at 1, get. unfold bind at 1, lift.
  rewrite (store_cell_Ok _ row); [reflexivity | exact Hrow |].
  destruct Hwf as (Hcs & _ & _ & Hrows).
  rewrite (proj1 (Forall_lookup _ _) Hrows q row Hrow), <- Hcs.
  apply SymbolIndex_Some in Hk as [Hk _]. eapply lookup_lt_Some, Hk.
Qed.

Lemma addTransitions_wf (ts : list (Z * ascii * Z)) (d d' : DFA) (u : unit) :
  wf d -> addTransitions ts d = Ok (u, d') -> wf d'.
Proof.
  revert d. induction ts as [| [[q c] v] ts IH]; intros d Hwf; simpl.
  - intros [= _ <-]. exact Hwf.
  - unfold bind at 1.
    destruct (addTransition q c v d) as [[u1 d1] | f] eqn:E; [| discriminate].
    apply IH. eapply addTransition_wf; eassumption.
Qed.

(** Every automaton that [createDFA] and calls of [addTransition] produce
    has the shape [wf]. *)
Lemma build_wf (chars : string) (nStates initState : Z) (finStates : list Z)
    (ts : list (Z * ascii * Z)) (d : DFA) :
  build chars nStates initState finStates ts = Ok d -> wf d.
Proof.
  unfold build.
  destruct (createDFA _ _ _ _ _) as [d0 | f] eqn:Hd0; [| discriminate].
  simpl. destruct (addTransitions ts d0) as [[u d1] | f] eqn:Hts; [| discriminate].
  intros [= <-]. eapply addTransitions_wf; [| exact Hts].
  eapply createDFA_wf, Hd0.
Qed.

(** What [checkString] does with the counter: the table is reported
    incomplete exactly when the counter is not zero. *)
Lemma checkString_incomplete_iff (d : DFA) (inp : list ascii) :
  wf d ->
  Z.of_nat (strlen inp) <= Int.INT_MAX ->
  checkString inp d = Ok (ERROR_INCOMPLETE_TABLE, d) <-> incompleteCells d <> 0.
Proof.
  intros Hwf Hlen. rewrite (checkString_spec d inp Hwf Hlen).
  unfold Spec.CheckString.
  destruct (decide (incompleteCells d = 0)) as [Hz | Hnz].
  - split; [| contradiction]. unfold Spec.Evaluate.
    destruct (Spec.run d (initialState d) (symbols inp)) as [[q |] | f]; simpl.
    + destruct (decide (q ∈ finalStates d)); discriminate.
    + discriminate.
    + discriminate.
  - split; [intros _; exact Hnz | reflexivity].
Qed.

(** ** A table whose cells are all written *)

Lemma closed_load_cell (d : DFA) (q : Z) (k : nat) (c : ascii) :
  wf d -> closed d ->
  0 <= q < states d ->
  Spec.SymbolIndex (alphabet d) c = Some k ->
  exists v, load_cell (transitionTable d) q (Z.of_nat k) = Ok v /\
            0 <= v < states d.
Proof.
  intros (Hcs & _ & Ht & Hrows) [_ Hcells] Hq Hk.
  assert (Hlen : (Z.to_nat q < length (transitionTable d))%nat) by lia.
  destruct (lookup_lt_is_Some_2 _ _ Hlen) as [row Hrow].
  assert (Hkrow : (k < length row)%nat).
  { rewrite (proj1 (Forall_lookup _ _) Hrows _ row Hrow), <- Hcs.
    apply SymbolIndex_Some in Hk as [Hk _]. eapply lookup_lt_Some, Hk. }
  destruct (lookup_lt_is_Some_2 _ _ Hkrow) as [cell Hcell].
  pose proof (proj1 (Forall_lookup _ _) Hcells _ row Hrow) as Hr.
  destruct (proj1 (Forall_lookup _ _) Hr _ cell Hcell) as (v & -> & Hv).
  exists v. split; [| exact Hv]. unfold load_cell.
  rewrite <- (Z2Nat.id q) by lia. rewrite (load_Ok _ _ row Hrow). simpl.
  rewrite (load_Ok _ _ (Some v) Hcell). reflexivity.
Qed.

Lemma closed_run (d : DFA) (input : list ascii) (q : Z) :
  wf d -> closed d ->
  0 <= q < states d ->
  exists r, Spec.run d q input = Ok r /\
            forall q', r = Some q' -> 0 <= q' < states d.
Proof.
  intros Hwf Hcl. revert q. induction input as [| c input IH]; intros q Hq; simpl.
  - exists (Some q). split; [reflexivity |]. intros q' [= <-]. exact Hq.
  - destruct (Spec.SymbolIndex (alphabet d) c) as [k |] eqn:Hk.
    + destruct (closed_load_cell d q k c Hwf Hcl Hq Hk) as (v & -> & Hv).
      simpl. apply IH. exact Hv.
    + exists None. split; [reflexivity | discriminate].
Qed.

(** With all cells written, [checkString] returns one of its three
    outcomes on a complete table, without a fault. *)
Lemma checkString_closed (d : DFA) (inp : list ascii) :
  wf d -> closed d ->
  incompleteCells d = 0 ->
  Z.of_nat (strlen inp) <= Int.INT_MAX ->
  exists o, checkString inp d = Ok (Spec.code o, d) /\ o <> Spec.IncompleteTable.
Proof.
  intros Hwf Hcl Hz Hlen. rewrite (checkString_spec d inp Hwf Hlen).
  unfold Spec.CheckString. rewrite decide_True by exact Hz.
  unfold Spec.Evaluate.
  destruct (closed_run d (symbols inp) (initialState d) Hwf Hcl (proj1 Hcl))
    as (r & -> & _).
  simpl. destruct r as [q |].
  - destruct (decide (q ∈ finalStates d));
      eexists; (split; [reflexivity | discriminate]).
  - eexists; (split; [reflexivity | discriminate]).
Qed.

(** ** Concrete automata *)

Lemma mod3_built : build "01" 3 0 [0] mod3_transitions = Ok mod3.
Proof. vm_compute. reflexivity. Qed.

Lemma mod3_empty_created : createDFA (cstr "01") 3 0 1 [0] = Ok mod3_empty.
Proof. vm_compute. reflexivity. Qed.

Lemma mod3_wf : wf mod3.
Proof. unfold wf. simpl. repeat split; repeat constructor. Defined.

Lemma mod3_empty_wf : wf mod3_empty.
Proof. unfold wf. simpl. repeat split; repeat constructor. Defined.

(** ** Properties of the operations *)

(** C1. On an automaton whose counter of unset cells is zero, [checkString]
    is the left-to-right fold of the specification over the symbols of the
    input: from the initial state, each symbol is looked up in the alphabet,
    a symbol that is absent ends the evaluation with InvalidSymbol, any
    other one replaces the current state by its table cell, and the state
    reached at the end decides between Accepted and Rejected by its
    membership in the final states.  The automaton itself is left as it
    was.  (The length of the input is held in an [int].) *)
Theorem checkString_evaluates_fold (d : DFA) (inp : list ascii) :
  wf d ->
  incompleteCells d = 0 ->
  Z.of_nat (strlen inp) <= Int.INT_MAX ->
  checkString inp d =
  (o <~ Spec.Evaluate d (symbols inp) ;; Ok (Spec.code o, d)).
Proof.
  intros Hwf Hz Hlen. rewrite (checkString_spec d inp Hwf Hlen).
  unfold Spec.CheckString. rewrite decide_True by exact Hz. reflexivity.
Qed.

Lemma checkString_evaluates_fold_witness :
  checkString (cstr "110") mod3 =
  (o <~ Spec.Evaluate mod3 (symbols (cstr "110")) ;; Ok (Spec.code o, mod3)).
Proof.
  apply checkString_evaluates_fold.
  - exact mod3_wf.
  - reflexivity.
  - vm_compute. discriminate.
Defined.

(** C3, as the code has it.  [checkString] looks at the counter of unset
    cells before it looks at the input: when the counter is not zero the
    answer is IncompleteTable, also for a string with a character outside
    the alphabet.  When the counter is zero, and the transitions on the
    symbols before the first such character are defined, the answer is
    InvalidSymbol, whatever follows that character. *)
Theorem checkString_invalid_symbol (d : DFA) (inp : list ascii) :
  wf d ->
  Z.of_nat (strlen inp) <= Int.INT_MAX ->
  (incompleteCells d <> 0 ->
   checkString inp d = Ok (ERROR_INCOMPLETE_TABLE, d)) /\
  (incompleteCells d = 0 ->
   forall (pre rest : list ascii) (c : ascii) (q : Z),
     symbols inp = pre ++ c :: rest ->
     c ∉ alphabet d ->
     Spec.run d (initialState d) pre = Ok (Some q) ->
     checkString inp d = Ok (ERROR_INVALID_CHARACTER_IN_INPUT, d)).
Proof.
  intros Hwf Hlen. rewrite (checkString_spec d inp Hwf Hlen).
  unfold Spec.CheckString. split.
  - intros Hnz. rewrite decide_False by exact Hnz. reflexivity.
  - intros Hz pre rest c q Hsym Hc Hpre. rewrite decide_True by exact Hz.
    unfold Spec.Evaluate. rewrite Hsym.
    assert (Hrun : forall q0, Spec.run d q0 pre = Ok (Some q) ->
                   Spec.run d q0 (pre ++ c :: rest) = Ok None).
    { clear Hpre Hsym. induction pre as [| x pre IH]; intros q0; simpl.
      - intros _. apply SymbolIndex_None in Hc. rewrite Hc. reflexivity.
      - destruct (Spec.SymbolIndex (alphabet d) x) as [k |]; [| discriminate].
        destruct (load_cell (transitionTable d) q0 (Z.of_nat k)) as [q1 | f];
          [| discriminate].
        simpl. apply IH. }
    rewrite (Hrun _ Hpre). reflexivity.
Qed.

Lemma checkString_invalid_symbol_witness :
  checkString (cstr "102") mod3 = Ok (ERROR_INVALID_CHARACTER_IN_INPUT, mod3).
Proof.
  assert (Hlen : Z.of_nat (strlen (cstr "102")) <= Int.INT_MAX)
    by (vm_compute; discriminate).
  apply (proj2 (checkString_invalid_symbol mod3 (cstr "102") mod3_wf Hlen)
           eq_refl (cstr "10") [] "2"%char 2).
  - reflexivity.
  - intros H. apply list_elem_of_In in H. simpl in H.
    destruct H as [H | [H | []]]; discriminate H.
  - reflexivity.
Defined.

(** C3 as it is stated fails on an automaton that is not complete: right
    after [createDFA] the string "2", whose only character is outside the
    alphabet "01", is answered by IncompleteTable. *)
Lemma checkString_invalid_symbol_incomplete :
  createDFA (cstr "01") 3 0 1 [0] = Ok mod3_empty /\
  "2"%char ∈ symbols (cstr "2") /\
  ("2"%char ∉ alphabet mod3_empty) /\
  checkString (cstr "2") mod3_empty = Ok (ERROR_INCOMPLETE_TABLE, mod3_empty) /\
  checkString (cstr "2") mod3_empty <>
    Ok (ERROR_INVALID_CHARACTER_IN_INPUT, mod3_empty).
Proof.
  split; [exact mod3_empty_created |].
  split; [left |].
  split.
  - intros H. apply list_elem_of_In in H. simpl in H.
    destruct H as [H | [H | []]]; discriminate H.
  - split; [reflexivity | discriminate].
Qed.

(** C5. The scenario of the binary multiples of three: "110" is accepted,
    "101" is rejected, "102" has an invalid symbol, and without the
    transition from state 2 on '1' the table is reported incomplete. *)
Theorem mod3_scenario :
  run_on (build "01" 3 0 [0] mod3_transitions) "110" = Ok (Spec.code Spec.Accepted) /\
  run_on (build "01" 3 0 [0] mod3_transitions) "101" = Ok (Spec.code Spec.Rejected) /\
  run_on (build "01" 3 0 [0] mod3_transitions) "102" = Ok (Spec.code Spec.InvalidSymbol) /\
  run_on (build "01" 3 0 [0] (take 5 mod3_transitions)) "0" =
    Ok (Spec.code Spec.IncompleteTable).
Proof. repeat split; vm_compute; reflexivity. Qed.

(** C6. On a complete automaton the empty string is accepted exactly when
    the initial state is a final state, and rejected otherwise. *)
Theorem checkString_empty_string (d : DFA) :
  wf d ->
  incompleteCells d = 0 ->
  exists o,
    checkString [] d = Ok (Spec.code o, d) /\
    (o = Spec.Accepted <-> initialState d ∈ finalStates d) /\
    (o = Spec.Rejected <-> initialState d ∉ finalStates d).
Proof.
  intros Hwf Hz.
  rewrite (checkString_spec d [] Hwf) by (simpl; unfold Int.INT_MAX; lia).
  unfold Spec.CheckString. rewrite decide_True by exact Hz.
  unfold Spec.Evaluate, symbols. simpl.
  destruct (decide (initialState d ∈ finalStates d)) as [Hin | Hnin].
  - exists Spec.Accepted. split; [reflexivity |]. split; split; try done.
  - exists Spec.Rejected. split; [reflexivity |]. split; split; try done.
Qed.

Lemma checkString_empty_string_witness :
  exists o,
    checkString [] mod3 = Ok (Spec.code o, mod3) /\
    (o = Spec.Accepted <-> initialState mod3 ∈ finalStates mod3) /\
    (o = Spec.Rejected <-> initialState mod3 ∉ finalStates mod3).
Proof. apply checkString_empty_string; [exact mod3_wf | reflexivity]. Defined.

(** C7. [addTransition] with a character outside the alphabet returns
    without a fault and leaves the whole automaton, table and counter
    included, as it was, whatever the two states it is given. *)
Theorem addTransition_unknown_symbol (d : DFA) (q : Z) (c : ascii) (v : Z) :
  wf d ->
  c ∉ alphabet d ->
  addTransition q c v d = Ok (tt, d).
Proof.
  intros Hwf Hc. unfold addTransition. unfold bind at 1.
  rewrite (indexOf_spec d c Hwf).
  apply SymbolIndex_None in Hc. rewrite Hc. reflexivity.
Qed.

Lemma addTransition_unknown_symbol_witness :
  addTransition 7 "2"%char 9 mod3_empty = Ok (tt, mod3_empty).
Proof.
  apply addTransition_unknown_symbol.
  - exact mod3_empty_wf.
  - intros H. apply list_elem_of_In in H. simpl in H.
    destruct H as [H | [H | []]]; discriminate H.
Defined.

(** C8. [checkString] writes no field of the automaton: when a call
    returns, the automaton is the one it was given, so the same call again
    returns the same value, and a call on another string made after it
    returns what it would have returned without it. *)
Theorem checkString_pure (d d' : DFA) (inp1 inp2 : list ascii) (v : Z) :
  checkString inp1 d = Ok (v, d') ->
  d' = d /\
  checkString inp1 d' = Ok (v, d') /\
  (checkString inp1 ;;; checkString inp2) d = checkString inp2 d.
Proof.
  intros H. pose proof (checkString_read_only inp1 d v d' H) as ->.
  split; [reflexivity |]. split; [exact H |].
  unfold bind. rewrite H. reflexivity.
Qed.

Lemma checkString_pure_witness :
  mod3 = mod3 /\
  checkString (cstr "110") mod3 = Ok (1, mod3) /\
  (checkString (cstr "110") ;;; checkString (cstr "101")) mod3 =
    checkString (cstr "101") mod3.
Proof. apply (checkString_pure mod3 mod3 (cstr "110") (cstr "101") 1). reflexivity. Defined.

(** C9. [indexOf] returns the first position of the character in the
    alphabet when it occurs there and -1 when it does not, and leaves the
    automaton as it was. *)
Theorem indexOf_linear_search (d : DFA) (c : ascii) :
  wf d ->
  exists r,
    indexOf c d = Ok (r, d) /\
    (c ∈ alphabet d ->
       0 <= r /\ alphabet d !! Z.to_nat r = Some c /\
       forall j, (j < Z.to_nat r)%nat -> alphabet d !! j <> Some c) /\
    (c ∉ alphabet d -> r = -1).
Proof.
  intros Hwf. rewrite (indexOf_spec d c Hwf).
  destruct (Spec.SymbolIndex (alphabet d) c) as [k |] eqn:Hk.
  - exists (Z.of_nat k). split; [reflexivity |].
    apply SymbolIndex_Some in Hk as [Hk Hfirst]. split.
    + intros _. rewrite Nat2Z.id. split; [lia | auto].
    + intros Hc. exfalso. apply Hc. eapply list_elem_of_lookup_2, Hk.
  - exists (-1). split; [reflexivity |].
    apply SymbolIndex_None in Hk. split; [intros Hc; contradiction | reflexivity].
Qed.

Lemma indexOf_linear_search_witness :
  exists r,
    indexOf "1"%char mod3 = Ok (r, mod3) /\
    ("1"%char ∈ alphabet mod3 ->
       0 <= r /\ alphabet mod3 !! Z.to_nat r = Some "1"%char /\
       forall j, (j < Z.to_nat r)%nat -> alphabet mod3 !! j <> Some "1"%char) /\
    ("1"%char ∉ alphabet mod3 -> r = -1).
Proof. apply indexOf_linear_search. exact mod3_wf. Defined.

(** ** The counter of unset cells *)

Lemma two_states_empty_wf : wf two_states_empty.
Proof. unfold wf. simpl. repeat split; repeat constructor. Defined.

(** C2, on the code.  [addTransition] decrements the counter at every call
    for a symbol of the alphabet, also when the cell was written before.
    After two calls for the cell of state 0 the counter of a table of two
    cells is zero and [checkString] evaluates the empty string although the
    cell of state 1 was never written; after two calls for the only cell of
    a table of one cell the counter is -1 and [checkString] reports an
    incomplete table although every cell is written. *)
Theorem counter_not_unset_cells :
  (build "a" 2 0 [0] [(0, "a"%char, 0); (0, "a"%char, 1)] = Ok twice /\
   load (transitionTable twice) 1 = Ok [None] /\
   checkString (cstr "") twice = Ok (Spec.code Spec.Accepted, twice)) /\
  (build "a" 1 0 [0] [(0, "a"%char, 0); (0, "a"%char, 0)] = Ok over /\
   transitionTable over = [[Some 0]] /\
   checkString (cstr "") over = Ok (Spec.code Spec.IncompleteTable, over)).
Proof. repeat split; vm_compute; reflexivity. Qed.

(** C4, on the code.  Two calls of [addTransition] for the same state and
    the same symbol of the alphabet both succeed; the cell then holds the
    state of the second call, and the second call decrements the counter
    once more, so that it differs from its value after the first. *)
Theorem addTransition_twice (d : DFA) (q : Z) (c : ascii) (v1 v2 : Z) :
  wf d ->
  c ∈ alphabet d ->
  0 <= q < states d ->
  exists d1 d2 k,
    Spec.SymbolIndex (alphabet d) c = Some k /\
    addTransition q c v1 d = Ok (tt, d1) /\
    addTransition q c v2 d1 = Ok (tt, d2) /\
    load_cell (transitionTable d2) q (Z.of_nat k) = Ok v2 /\
    incompleteCells d2 = Int.wrap (incompleteCells d1 - 1) /\
    incompleteCells d2 <> incompleteCells d1.
Proof.
  intros Hwf Hc Hq.
  destruct (SymbolIndex_is_Some _ _ Hc) as [k Hk].
  assert (Hlen : (Z.to_nat q < length (transitionTable d))%nat).
  { destruct Hwf as (_ & _ & Ht & _). rewrite Ht. lia. }
  destruct (lookup_lt_is_Some_2 _ _ Hlen) as [row Hrow].
  assert (Hkrow : (k < length row)%nat).
  { destruct Hwf as (Hcs & _ & _ & Hrows).
    rewrite (proj1 (Forall_lookup _ _) Hrows _ row Hrow), <- Hcs.
    apply SymbolIndex_Some in Hk as [Hk _]. eapply lookup_lt_Some, Hk. }
  pose proof (addTransition_known d (Z.to_nat q) k c v1 row Hwf Hk Hrow) as H1.
  rewrite Z2Nat.id in H1 by lia.
  set (d1 := set_incompleteCells _ _) in H1.
  assert (Hwf1 : wf d1) by (apply set_table_wf; assumption).
  assert (Hrow1 : transitionTable d1 !! Z.to_nat q = Some (<[k := Some v1]> row)).
  { simpl. apply list_lookup_insert_eq. exact Hlen. }
  pose proof (addTransition_known d1 (Z.to_nat q) k c v2 _ Hwf1 Hk Hrow1) as H2.
  rewrite Z2Nat.id in H2 by lia.
  set (d2 := set_incompleteCells _ _) in H2.
  exists d1, d2, k. repeat split; try assumption.
  - rewrite <- (Z2Nat.id q) by lia.
    apply load_cell_stored; [exact Hrow1 |].
    rewrite length_insert. exact Hkrow.
  - apply wrap_pred_neq.
Qed.

Lemma addTransition_twice_witness :
  exists d1 d2 k,
    Spec.SymbolIndex (alphabet two_states_empty) "a"%char = Some k /\
    addTransition 0 "a"%char 0 two_states_empty = Ok (tt, d1) /\
    addTransition 0 "a"%char 1 d1 = Ok (tt, d2) /\
    load_cell (transitionTable d2) 0 (Z.of_nat k) = Ok 1 /\
    incompleteCells d2 = Int.wrap (incompleteCells d1 - 1) /\
    incompleteCells d2 <> incompleteCells d1.
Proof.
  apply addTransition_twice.
  - exact two_states_empty_wf.
  - left.
  - simpl. lia.
Defined.

(** C10, on the code.  With every state of every call in range, the two
    calls for the cell of state 0 bring the counter to zero, and
    [checkString] on "aaa" moves to state 1 and then reads the cell of state
    1 that no call has written. *)
Theorem checkString_reads_unset_cell :
  createDFA (cstr "a") 2 0 1 [0] = Ok two_states_empty /\
  addTransitions [(0, "a"%char, 0); (0, "a"%char, 1)] two_states_empty =
    Ok (tt, twice) /\
  checkString (cstr "a") twice = Ok (Spec.code Spec.Rejected, twice) /\
  checkString (cstr "aaa") twice = Fault Uninitialized.
Proof. repeat split; vm_compute; reflexivity. Qed.

(** ** createDFA *)


Lemma copy_loop_short {A : Type} (src : list A) (n i : nat) :
  (i <= length src < i + n)%nat ->
  copy_loop src n (Z.of_nat i) = Fault OutOfBounds.
Proof.
  revert i. induction n as [| n IH]; intros i Hlen; simpl; [lia |].
  destruct (src !! i) as [x |] eqn:Hx.
  - rewrite (load_Ok src i x Hx). simpl.
    replace (Z.of_nat i + 1) with (Z.of_nat (S i)) by lia.
    apply lookup_lt_Some in Hx. rewrite IH by lia. reflexivity.
  - unfold load. destruct (Z.ltb_spec (Z.of_nat i) 0) as [_ | _]; [reflexivity |].
    rewrite Nat2Z.id, Hx. reflexivity.
Qed.

Lemma wrap_range (z : Z) : Int.in_range (Int.wrap z).
Proof.
  unfold Int.in_range, Int.wrap, Int.INT_MIN, Int.INT_MAX, Int.modulus.
  pose proof (Z.mod_pos_bound (z - -2147483648) 4294967296 ltac:(lia)). lia.
Qed.

Lemma wrap_wrap_add (a b : Z) : Int.wrap (Int.wrap a + b) = Int.wrap (a + b).
Proof.
  unfold Int.wrap, Int.INT_MIN, Int.modulus.
  replace ((a - -2147483648) `mod` 4294967296 + -2147483648 + b - -2147483648)
    with ((a - -2147483648) `mod` 4294967296 + b) by lia.
  rewrite Zplus_mod_idemp_l. do 2 f_equal. lia.
Qed.



(** X2. When [nFinStates] exceeds the number of cells of the array of final
    states, the copy loop of [createDFA] reads past the end of the array. *)
Theorem createDFA_short_array (chars : list ascii)
    (nStates initState nFinStates : Z) (finStates : list Z) :
  Z.of_nat (length finStates) < nFinStates ->
  createDFA chars nStates initState nFinStates finStates = Fault OutOfBounds.
Proof.
  intros Hfs. unfold createDFA.
  pose proof (copy_loop_short finStates (Z.to_nat nFinStates) 0 ltac:(lia)) as H1.
  change (Z.of_nat 0) with 0 in H1. rewrite H1. reflexivity.
Qed.

Lemma createDFA_short_array_witness :
  createDFA (cstr "01") 3 0 2 [0] = Fault OutOfBounds.
Proof. apply createDFA_short_array. simpl. lia. Defined.

(** X3. Right after [createDFA], [checkString] reports an incomplete table
    for every string, unless the automaton has no state or no symbol: then
    the counter starts at zero and the string is evaluated at once. *)
Theorem createDFA_incomplete (chars : list ascii)
    (nStates initState nFinStates : Z) (finStates : list Z) (d : DFA)
    (inp : list ascii) :
  createDFA chars nStates initState nFinStates finStates = Ok d ->
  Z.of_nat (strlen chars) <= Int.INT_MAX ->
  Int.in_range (nStates * Z.of_nat (strlen chars)) ->
  Z.of_nat (strlen inp) <= Int.INT_MAX ->
  checkString inp d = Ok (ERROR_INCOMPLETE_TABLE, d) <->
  nStates <> 0 /\ strlen chars <> O.
Proof.
  intros Hd Hlen Hprod Hinp.
  rewrite (checkString_incomplete_iff d inp (createDFA_wf _ _ _ _ _ _ Hd) Hinp).
  unfold createDFA in Hd.
  destruct (copy_loop finStates _ 0) as [fs | f]; [| discriminate]. simpl in Hd.
  destruct (copy_loop (chars ++ [NUL]) _ 0) as [cs | f]; [| discriminate].
  simpl in Hd. injection Hd as <-. simpl.
  rewrite (wrap_in_range (Z.of_nat (strlen chars)))
    by (unfold Int.in_range, Int.INT_MIN, Int.INT_MAX in *; lia).
  rewrite (wrap_in_range _ Hprod). nia.
Qed.

Lemma createDFA_incomplete_witness :
  checkString (cstr "2") mod3_empty = Ok (ERROR_INCOMPLETE_TABLE, mod3_empty) <->
  3 <> 0 /\ strlen (cstr "01") <> O.
Proof.
  apply (createDFA_incomplete (cstr "01") 3 0 1 [0] mod3_empty (cstr "2")).
  - reflexivity.
  - vm_compute. discriminate.
  - unfold Int.in_range, Int.INT_MIN, Int.INT_MAX. simpl. lia.
  - vm_compute. discriminate.
Defined.

(** ** addTransition *)

Lemma cell_update (d : DFA) (row : list (option Z)) (q0 k0 : nat)
    (x : option Z) (n : Z) (q k : nat) :
  transitionTable d !! q0 = Some row ->
  (k0 < length row)%nat ->
  cell (set_incompleteCells n
          (set_transitionTable (<[q0 := <[k0 := x]> row]> (transitionTable d)) d))
       q k =
  if decide (q = q0 /\ k = k0) then Some x else cell d q k.
Proof.
  intros Hrow Hk0. unfold cell. simpl.
  pose proof (lookup_lt_Some _ _ _ Hrow) as Hq0.
  destruct (decide (q = q0)) as [-> | Hq].
  - rewrite list_lookup_insert_eq by exact Hq0. rewrite Hrow. simpl.
    destruct (decide (k = k0)) as [-> | Hk].
    + rewrite decide_True by done. apply list_lookup_insert_eq. exact Hk0.
    + rewrite decide_False by tauto. apply list_lookup_insert_ne. congruence.
  - rewrite decide_False by tauto.
    rewrite list_lookup_insert_ne by congruence. reflexivity.
Qed.

Lemma cell_update_other_column (d : DFA) (row : list (option Z)) (q0 k0 : nat)
    (x : option Z) (n : Z) (q k : nat) :
  transitionTable d !! q0 = Some row ->
  k <> k0 ->
  cell (set_incompleteCells n
          (set_transitionTable (<[q0 := <[k0 := x]> row]> (transitionTable d)) d))
       q k =
  cell d q k.
Proof.
  intros Hrow Hk. unfold cell. simpl.
  destruct (decide (q = q0)) as [-> | Hq].
  - rewrite list_lookup_insert_eq by (eapply lookup_lt_Some, Hrow).
    rewrite Hrow. simpl. apply list_lookup_insert_ne. congruence.
  - rewrite list_lookup_insert_ne by congruence. reflexivity.
Qed.

Lemma SymbolIndex_lt (d : DFA) (c : ascii) (k : nat) (row : list (option Z))
    (q : nat) :
  wf d ->
  Spec.SymbolIndex (alphabet d) c = Some k ->
  transitionTable d !! q = Some row ->
  (k < length row)%nat.
Proof.
  intros (Hcs & _ & _ & Hrows) Hk Hrow.
  rewrite (proj1 (Forall_lookup _ _) Hrows q row Hrow), <- Hcs.
  apply SymbolIndex_Some in Hk as [Hk _]. eapply lookup_lt_Some, Hk.
Qed.

Lemma addTransition_cells (d : DFA) (q : Z) (c : ascii) (v : Z) (k : nat) :
  wf d ->
  Spec.SymbolIndex (alphabet d) c = Some k ->
  0 <= q < states d ->
  exists d',
    addTransition q c v d = Ok (tt, d') /\
    wf d' /\
    same_parameters d d' /\
    incompleteCells d' = Int.wrap (incompleteCells d - 1) /\
    forall q' k',
      cell d' q' k' =
      if decide (q' = Z.to_nat q /\ k' = k) then Some (Some v) else cell d q' k'.
Proof.
  intros Hwf Hk Hq.
  assert (Hlen : (Z.to_nat q < length (transitionTable d))%nat).
  { destruct Hwf as (_ & _ & Ht & _). rewrite Ht. lia. }
  destruct (lookup_lt_is_Some_2 _ _ Hlen) as [row Hrow].
  pose proof (addTransition_known d (Z.to_nat q) k c v row Hwf Hk Hrow) as H.
  rewrite Z2Nat.id in H by lia.
  eexists. split; [exact H |]. split; [apply set_table_wf; assumption |].
  split; [unfold same_parameters; simpl; tauto |].
  split; [reflexivity |].
  intros q' k'. apply cell_update; [exact Hrow |].
  eapply SymbolIndex_lt; eassumption.
Qed.

(** X4. A call of [addTransition] with a state of the automaton and a symbol
    of its alphabet returns; it writes the given target, whatever it is, in
    the cell of that state and of the first position of the symbol,
    decrements the counter, and leaves every other cell and every other
    field as they were. *)
Theorem addTransition_effect (d : DFA) (q : Z) (c : ascii) (v : Z) :
  wf d ->
  c ∈ alphabet d ->
  0 <= q < states d ->
  exists d' k,
    Spec.SymbolIndex (alphabet d) c = Some k /\
    addTransition q c v d = Ok (tt, d') /\
    wf d' /\
    same_parameters d d' /\
    incompleteCells d' = Int.wrap (incompleteCells d - 1) /\
    forall q' k',
      cell d' q' k' =
      if decide (q' = Z.to_nat q /\ k' = k) then Some (Some v) else cell d q' k'.
Proof.
  intros Hwf Hc Hq.
  destruct (SymbolIndex_is_Some _ _ Hc) as [k Hk].
  destruct (addTransition_cells d q c v k Hwf Hk Hq) as (d' & H).
  exists d', k. split; [exact Hk | exact H].
Qed.

Lemma addTransition_effect_witness :
  exists d' k,
    Spec.SymbolIndex (alphabet mod3_empty) "1"%char = Some k /\
    addTransition 2 "1"%char 7 mod3_empty = Ok (tt, d') /\
    wf d' /\
    same_parameters mod3_empty d' /\
    incompleteCells d' = Int.wrap (incompleteCells mod3_empty - 1) /\
    forall q' k',
      cell d' q' k' =
      if decide (q' = Z.to_nat 2 /\ k' = k) then Some (Some 7)
      else cell mod3_empty q' k'.
Proof.
  apply addTransition_effect.
  - exact mod3_empty_wf.
  - right. left.
  - simpl. lia.
Defined.

(** X5. [addTransition] does not check the state it indexes the table
    with: with a symbol of the alphabet and a state outside the rows of the
    table it accesses the table out of bounds. *)
Theorem addTransition_bad_state (d : DFA) (q : Z) (c : ascii) (v : Z) :
  wf d ->
  c ∈ alphabet d ->
  ~ (0 <= q < states d) ->
  addTransition q c v d = Fault OutOfBounds.
Proof.
  intros Hwf Hc Hq.
  destruct (SymbolIndex_is_Some _ _ Hc) as [k Hk].
  unfold addTransition. unfold bind at 1.
  rewrite (indexOf_spec d c Hwf), Hk. simpl.
  destruct (Z.ltb_spec (Z.of_nat k) 0) as [Hlt | _]; [lia |].
  unfold bind at 1, get. unfold bind at 1, lift.
  unfold store_cell, load.
  destruct (Z.ltb_spec q 0) as [_ | Hq0]; [reflexivity |].
  destruct Hwf as (_ & _ & Ht & _).
  rewrite (lookup_ge_None_2 (transitionTable d) (Z.to_nat q)) by lia.
  reflexivity.
Qed.

Lemma addTransition_bad_state_witness :
  addTransition 3 "0"%char 0 mod3_empty = Fault OutOfBounds.
Proof.
  apply addTransition_bad_state.
  - exact mod3_empty_wf.
  - left.
  - simpl. lia.
Defined.

Lemma addTransitions_calls (ts : list (Z * ascii * Z)) (d : DFA) :
  wf d ->
  Int.in_range (incompleteCells d) ->
  Forall (in_table d) ts ->
  exists d',
    addTransitions ts d = Ok (tt, d') /\
    wf d' /\
    same_parameters d d' /\
    incompleteCells d' = Int.wrap (incompleteCells d - Z.of_nat (length ts)) /\
    forall q k,
      cell d' q k =
      match registered (alphabet d) ts q k with
      | Some w => Some (Some w)
      | None => cell d q k
      end.
Proof.
  intros Hwf Hc Hts. revert d Hwf Hc Hts.
  induction ts as [| [[q c] v] ts IH]; intros d Hwf Hc Hts.
  - exists d. simpl. split; [reflexivity |]. split; [exact Hwf |].
    split; [unfold same_parameters; tauto |].
    split; [| reflexivity].
    rewrite Z.sub_0_r, wrap_in_range by exact Hc. reflexivity.
  - apply Forall_cons in Hts as [[Hq Hin] Hts]. simpl in Hq, Hin.
    destruct (SymbolIndex_is_Some _ _ Hin) as [k0 Hk0].
    destruct (addTransition_cells d q c v k0 Hwf Hk0 Hq)
      as (d1 & H1 & Hwf1 & Hsame1 & Hc1 & Hcell1).
    assert (Hal : alphabet d1 = alphabet d) by (unfold alphabet; apply Hsame1).
    assert (Hst : states d1 = states d) by apply Hsame1.
    destruct (IH d1 Hwf1) as (d' & H' & Hwf' & Hsame' & Hc' & Hcell').
    { rewrite Hc1. apply wrap_range. }
    { eapply Forall_impl; [exact Hts |]. intros t [Ht1 Ht2].
      unfold in_table. rewrite Hst, Hal. auto. }
    exists d'. simpl. unfold bind at 1. rewrite H1.
    split; [exact H' |]. split; [exact Hwf' |].
    split.
    { unfold same_parameters in *.
      destruct Hsame1 as (? & ? & ? & ? & ? & ?).
      destruct Hsame' as (? & ? & ? & ? & ? & ?).
      repeat split; congruence. }
    split.
    { rewrite Hc', Hc1.
      replace (Int.wrap (incompleteCells d - 1) - Z.of_nat (length ts))
        with (Int.wrap (incompleteCells d - 1) + - Z.of_nat (length ts)) by lia.
      rewrite wrap_wrap_add. f_equal. lia. }
    intros q' k'. rewrite Hcell', Hal, Hcell1.
    destruct (registered (alphabet d) ts q' k') as [w |]; [reflexivity |].
    destruct (decide (q' = Z.to_nat q /\ k' = k0)) as [[-> ->] | Hne].
    + rewrite decide_True; [reflexivity |]. split; [lia | exact Hk0].
    + rewrite decide_False; [reflexivity |].
      intros [-> Hk']. apply Hne. split; [lia | congruence].
Qed.

(** X6. A sequence of calls of [addTransition], each with a state of the
    automaton and a symbol of its alphabet, returns.  The counter goes down
    by the number of calls, not by the number of cells they write, and each
    cell holds the target of the last call made for it, or what it held
    before when no call was made for it. *)
Theorem addTransitions_effect (ts : list (Z * ascii * Z)) (d : DFA) :
  wf d ->
  Int.in_range (incompleteCells d) ->
  Forall (in_table d) ts ->
  exists d',
    addTransitions ts d = Ok (tt, d') /\
    wf d' /\
    same_parameters d d' /\
    incompleteCells d' = Int.wrap (incompleteCells d - Z.of_nat (length ts)) /\
    forall q k,
      cell d' q k =
      match registered (alphabet d) ts q k with
      | Some w => Some (Some w)
      | None => cell d q k
      end.
Proof.
  intros Hwf Hc Hts.
  destruct (addTransitions_calls ts d Hwf Hc Hts) as (d' & H).
  exists d'. exact H.
Qed.

Lemma addTransitions_effect_witness :
  exists d',
    addTransitions [(0, "a"%char, 0); (0, "a"%char, 1)] two_states_empty =
      Ok (tt, d') /\
    wf d' /\
    same_parameters two_states_empty d' /\
    incompleteCells d' = Int.wrap (incompleteCells two_states_empty - Z.of_nat 2) /\
    forall q k,
      cell d' q k =
      match registered (alphabet two_states_empty)
                       [(0, "a"%char, 0); (0, "a"%char, 1)] q k with
      | Some w => Some (Some w)
      | None => cell two_states_empty q k
      end.
Proof.
  apply addTransitions_effect.
  - unfold wf. simpl. repeat split; repeat constructor.
  - unfold Int.in_range, Int.INT_MIN, Int.INT_MAX. simpl. lia.
  - repeat constructor; simpl; lia.
Defined.

Lemma addTransition_other_column (d d' : DFA) (q : Z) (c : ascii) (v : Z)
    (u : unit) (j : nat) :
  wf d ->
  (forall c', Spec.SymbolIndex (alphabet d) c' <> Some j) ->
  addTransition q c v d = Ok (u, d') ->
  alphabet d' = alphabet d /\ forall q', cell d' q' j = cell d q' j.
Proof.
  intros Hwf Hj H. apply addTransition_inv in H as [[_ ->] | H]; [auto | | exact Hwf].
  destruct H as (k & row & Hk & _ & Hrow & ->). split; [reflexivity |].
  intros q'. apply cell_update_other_column; [exact Hrow |].
  intros ->. exact (Hj c Hk).
Qed.

(** X7. [createDFA] does not check that the characters of the alphabet are
    distinct, and [indexOf] finds the first position of a character only:
    no sequence of calls of [addTransition] writes a cell in the column of
    a later occurrence of a character. *)
Theorem repeated_symbol_column (ts : list (Z * ascii * Z)) (d d' : DFA)
    (u : unit) (c : ascii) (i j q : nat) :
  wf d ->
  (i < j)%nat ->
  alphabet d !! i = Some c ->
  alphabet d !! j = Some c ->
  addTransitions ts d = Ok (u, d') ->
  cell d' q j = cell d q j.
Proof.
  intros Hwf Hij Hi Hj.
  assert (Hnot : forall c', Spec.SymbolIndex (alphabet d) c' <> Some j).
  { intros c' Hc'. apply SymbolIndex_Some in Hc' as [Hc' Hfirst].
    apply (Hfirst i Hij). congruence. }
  clear Hi Hj Hij. revert d Hwf Hnot.
  induction ts as [| [[q0 c0] v0] ts IH]; intros d Hwf Hnot; simpl.
  - intros [= _ <-]. reflexivity.
  - unfold bind at 1.
    destruct (addTransition q0 c0 v0 d) as [[u1 d1] | f] eqn:H1; [| discriminate].
    intros H'.
    destruct (addTransition_other_column d d1 q0 c0 v0 u1 j Hwf Hnot H1)
      as [Hal Hcell].
    rewrite <- Hcell. apply IH; [| | exact H'].
    + eapply addTransition_wf; eassumption.
    + rewrite Hal. exact Hnot.
Qed.

Lemma repeated_symbol_column_witness :
  cell repeated_filled 0 1 = cell repeated_empty 0 1.
Proof.
  apply (repeated_symbol_column [(0, "a"%char, 0); (0, "a"%char, 0)]
           repeated_empty repeated_filled tt "a"%char 0 1 0).
  - unfold wf. simpl. repeat split; repeat constructor.
  - lia.
  - reflexivity.
  - reflexivity.
  - reflexivity.
Defined.

(** ** checkString *)

(** X8. [checkString] has no other outcome than 1, 0, its two error codes
    and a faulty access to the table. *)
Theorem checkString_codes (d : DFA) (inp : list ascii) :
  wf d ->
  Z.of_nat (strlen inp) <= Int.INT_MAX ->
  checkString inp d = Ok (1, d) \/
  checkString inp d = Ok (0, d) \/
  checkString inp d = Ok (ERROR_INCOMPLETE_TABLE, d) \/
  checkString inp d = Ok (ERROR_INVALID_CHARACTER_IN_INPUT, d) \/
  (exists f, checkString inp d = Fault f).
Proof.
  intros Hwf Hlen. rewrite (checkString_spec d inp Hwf Hlen).
  destruct (Spec.CheckString d (symbols inp)) as [o | f]; simpl.
  - destruct o; simpl; tauto.
  - do 4 right. exists f. reflexivity.
Qed.

Lemma checkString_codes_witness :
  checkString (cstr "101") mod3 = Ok (1, mod3) \/
  checkString (cstr "101") mod3 = Ok (0, mod3) \/
  checkString (cstr "101") mod3 = Ok (ERROR_INCOMPLETE_TABLE, mod3) \/
  checkString (cstr "101") mod3 = Ok (ERROR_INVALID_CHARACTER_IN_INPUT, mod3) \/
  (exists f, checkString (cstr "101") mod3 = Fault f).
Proof.
  apply checkString_codes.
  - exact mod3_wf.
  - vm_compute. discriminate.
Defined.

Lemma run_app (d : DFA) (pre rest : list ascii) (q0 q : Z) :
  Spec.run d q0 pre = Ok (Some q) ->
  Spec.run d q0 (pre ++ rest) = Spec.run d q rest.
Proof.
  revert q0. induction pre as [| x pre IH]; intros q0; simpl.
  - intros [= ->]. reflexivity.
  - destruct (Spec.SymbolIndex (alphabet d) x) as [k |]; [| discriminate].
    destruct (load_cell (transitionTable d) q0 (Z.of_nat k)) as [q1 | f];
      [| discriminate].
    simpl. apply IH.
Qed.

(** X9. [checkString] does not check the state it indexes the table with.
    When the state reached, be it the initial state given to [createDFA] or
    a target given to [addTransition], is not a row of the table and a
    symbol of the alphabet follows, the table is accessed out of bounds. *)
Theorem checkString_bad_state (d : DFA) (inp pre rest : list ascii)
    (c : ascii) (q : Z) :
  wf d ->
  incompleteCells d = 0 ->
  Z.of_nat (strlen inp) <= Int.INT_MAX ->
  symbols inp = pre ++ c :: rest ->
  Spec.run d (initialState d) pre = Ok (Some q) ->
  ~ (0 <= q < states d) ->
  c ∈ alphabet d ->
  checkString inp d = Fault OutOfBounds.
Proof.
  intros Hwf Hz Hlen Hsym Hpre Hq Hc.
  rewrite (checkString_spec d inp Hwf Hlen).
  unfold Spec.CheckString. rewrite decide_True by exact Hz.
  unfold Spec.Evaluate. rewrite Hsym, (run_app d pre (c :: rest) _ q Hpre).
  simpl. destruct (SymbolIndex_is_Some _ _ Hc) as [k ->].
  unfold load_cell, load.
  destruct (Z.ltb_spec q 0) as [_ | Hq0]; [reflexivity |].
  destruct Hwf as (_ & _ & Ht & _).
  rewrite (lookup_ge_None_2 (transitionTable d) (Z.to_nat q)) by lia.
  reflexivity.
Qed.

Lemma checkString_bad_state_witness :
  checkString (cstr "10") stray = Fault OutOfBounds.
Proof.
  apply (checkString_bad_state stray (cstr "10") (cstr "1") [] "0"%char 5).
  - unfold wf. simpl. repeat split; repeat constructor.
  - reflexivity.
  - vm_compute. discriminate.
  - reflexivity.
  - reflexivity.
  - simpl. lia.
  - left.
Defined.

Lemma closed_run_None (d : DFA) (input : list ascii) (q : Z) :
  wf d -> closed d ->
  0 <= q < states d ->
  Spec.run d q input = Ok None <-> exists c, c ∈ input /\ (c ∉ alphabet d).
Proof.
  intros Hwf Hcl. revert q. induction input as [| c input IH]; intros q Hq; simpl.
  - split; [discriminate |]. intros (c & Hc & _).
    apply not_elem_of_nil in Hc. contradiction.
  - destruct (Spec.SymbolIndex (alphabet d) c) as [k |] eqn:Hk.
    + destruct (closed_load_cell d q k c Hwf Hcl Hq Hk) as (v & -> & Hv).
      simpl. rewrite (IH v Hv). split.
      * intros (c' & Hc' & Hn). exists c'. split; [right; exact Hc' | exact Hn].
      * intros (c' & Hc' & Hn). exists c'. split; [| exact Hn].
        apply elem_of_cons in Hc' as [-> | Hc']; [| exact Hc'].
        exfalso. apply SymbolIndex_None in Hn. congruence.
    + split; [| reflexivity]. intros _. exists c. split; [left |].
      apply SymbolIndex_None. exact Hk.
Qed.

(** X10. On an automaton whose counter is zero and whose cells all hold
    states of the automaton, [checkString] reports an invalid character
    exactly for the strings that have a character outside the alphabet. *)
Theorem checkString_invalid_iff (d : DFA) (inp : list ascii) :
  wf d -> closed d ->
  incompleteCells d = 0 ->
  Z.of_nat (strlen inp) <= Int.INT_MAX ->
  checkString inp d = Ok (ERROR_INVALID_CHARACTER_IN_INPUT, d) <->
  exists c, c ∈ symbols inp /\ (c ∉ alphabet d).
Proof.
  intros Hwf Hcl Hz Hlen.
  rewrite <- (closed_run_None d (symbols inp) (initialState d) Hwf Hcl (proj1 Hcl)).
  rewrite (checkString_spec d inp Hwf Hlen).
  unfold Spec.CheckString. rewrite decide_True by exact Hz.
  unfold Spec.Evaluate.
  destruct (closed_run d (symbols inp) (initialState d) Hwf Hcl (proj1 Hcl))
    as (r & -> & _).
  simpl. destruct r as [q |].
  - split; [| discriminate].
    destruct (decide (q ∈ finalStates d)); discriminate.
  - split; reflexivity.
Qed.

Lemma mod3_closed : closed mod3.
Proof.
  unfold closed. simpl. split; [lia |].
  repeat constructor; eexists; (split; [reflexivity | lia]).
Defined.

Lemma checkString_invalid_iff_witness :
  checkString (cstr "102") mod3 = Ok (ERROR_INVALID_CHARACTER_IN_INPUT, mod3) <->
  exists c, c ∈ symbols (cstr "102") /\ (c ∉ alphabet mod3).
Proof.
  apply checkString_invalid_iff.
  - exact mod3_wf.
  - exact mod3_closed.
  - reflexivity.
  - vm_compute. discriminate.
Defined.

(** X11. An automaton made with no final state, [nFinStates] zero or
    negative, accepts no string. *)
Theorem checkString_no_final_state (d : DFA) (inp : list ascii) :
  wf d ->
  numberOfFinalStates d <= 0 ->
  Z.of_nat (strlen inp) <= Int.INT_MAX ->
  returned (checkString inp d) <> Ok 1.
Proof.
  intros Hwf Hn Hlen. rewrite (checkString_spec d inp Hwf Hlen).
  assert (Hfs : finalStates d = []).
  { destruct Hwf as (_ & Hfs & _). apply length_zero_iff_nil. lia. }
  unfold Spec.CheckString, Spec.Evaluate.
  destruct (decide (incompleteCells d = 0)); [| discriminate].
  destruct (Spec.run d (initialState d) (symbols inp)) as [[q |] | f]; simpl;
    [| discriminate | discriminate].
  rewrite Hfs, decide_False by apply not_elem_of_nil. discriminate.
Qed.

Lemma checkString_no_final_state_witness :
  returned (checkString (cstr "aa") no_final) <> Ok 1.
Proof.
  apply checkString_no_final_state.
  - unfold wf. simpl. repeat split; repeat constructor.
  - simpl. lia.
  - vm_compute. discriminate.
Defined.

Lemma run_set_initialState (d : DFA) (q0 q : Z) (input : list ascii) :
  Spec.run (set_initialState q0 d) q input = Spec.run d q input.
Proof.
  revert q. induction input as [| c input IH]; intros q; simpl; [reflexivity |].
  destruct (Spec.SymbolIndex _ c) as [k |]; [| reflexivity].
  destruct (load_cell (transitionTable d) q (Z.of_nat k)); simpl; auto.
Qed.

(** X12. Evaluation goes on from the state it has reached: the value
    returned for a string is the value returned for its second part by the
    same automaton started in the state that the first part leads to. *)
Theorem checkString_app (d : DFA) (inp inp2 pre : list ascii) (q : Z) :
  wf d ->
  incompleteCells d = 0 ->
  Z.of_nat (strlen inp) <= Int.INT_MAX ->
  Z.of_nat (strlen inp2) <= Int.INT_MAX ->
  symbols inp = pre ++ symbols inp2 ->
  Spec.run d (initialState d) pre = Ok (Some q) ->
  returned (checkString inp d) =
  returned (checkString inp2 (set_initialState q d)).
Proof.
  intros Hwf Hz Hlen Hlen2 Hsym Hpre.
  rewrite (checkString_spec d inp Hwf Hlen).
  rewrite (checkString_spec (set_initialState q d) inp2 Hwf Hlen2).
  unfold Spec.CheckString. simpl. rewrite !decide_True by exact Hz.
  unfold Spec.Evaluate. simpl.
  rewrite Hsym, (run_app d pre _ _ q Hpre), run_set_initialState.
  destruct (Spec.run d q (symbols inp2)) as [[q' |] | f]; reflexivity.
Qed.

Lemma checkString_app_witness :
  returned (checkString (cstr "110") mod3) =
  returned (checkString (cstr "0") (set_initialState 0 mod3)).
Proof.
  apply (checkString_app mod3 (cstr "110") (cstr "0") (cstr "11") 0).
  - exact mod3_wf.
  - reflexivity.
  - vm_compute. discriminate.
  - vm_compute. discriminate.
  - reflexivity.
  - reflexivity.
Defined.

(** ** The loops of the driver *)

Lemma SymbolIndex_NoDup (al : list ascii) (c : ascii) (j : nat) :
  NoDup al -> al !! j = Some c -> Spec.SymbolIndex al c = Some j.
Proof.
  intros Hnd Hj. apply SymbolIndex_Some. split; [exact Hj |].
  intros i Hi Hc. pose proof (NoDup_lookup al i j c Hnd Hc Hj). lia.
Qed.

Lemma addTransitions_app (l1 l2 : list (Z * ascii * Z)) (d : DFA) :
  addTransitions (l1 ++ l2) d = (addTransitions l1 ;;; addTransitions l2) d.
Proof.
  revert d. induction l1 as [| [[q c] v] l1 IH]; intros d; simpl.
  - reflexivity.
  - unfold bind.
    destruct (addTransition q c v d) as [[u d1] | f]; [| reflexivity].
    rewrite IH. reflexivity.
Qed.

Lemma main_fill_row_calls (cs pre rest : list ascii) (typed : Z -> Z -> Z)
    (i : Z) (d : DFA) :
  cs = pre ++ rest ->
  main_fill_row cs typed i (length rest) (Z.of_nat (length pre)) d =
  addTransitions (row_calls typed i rest (Z.of_nat (length pre))) d.
Proof.
  revert pre d. induction rest as [| c rest IH]; intros pre d Hcs; simpl.
  - reflexivity.
  - unfold bind at 1, lift.
    rewrite (load_Ok cs (length pre) c)
      by (rewrite Hcs; apply list_lookup_middle; reflexivity).
    unfold bind.
    destruct (addTransition i c (typed i (Z.of_nat (length pre))) d)
      as [[u d1] | f]; [| reflexivity].
    replace (Z.of_nat (length pre) + 1) with (Z.of_nat (length (pre ++ [c])))
      by (rewrite length_app; simpl; lia).
    apply IH. rewrite <- app_assoc. exact Hcs.
Qed.

Lemma main_fill_rows_calls (cs : list ascii) (typed : Z -> Z -> Z)
    (n : nat) (i : Z) (d : DFA) :
  main_fill_rows cs typed (Z.of_nat (length cs)) n i d =
  addTransitions (table_calls typed cs n i) d.
Proof.
  revert i d. induction n as [| n IH]; intros i d; simpl.
  - reflexivity.
  - rewrite addTransitions_app. unfold bind. rewrite Nat2Z.id.
    pose proof (main_fill_row_calls cs [] cs typed i d eq_refl) as Hrow.
    change (Z.of_nat (length [])) with 0 in Hrow. rewrite Hrow.
    destruct (addTransitions (row_calls typed i cs 0) d) as [[u d1] | f];
      [| reflexivity].
    apply IH.
Qed.

Lemma registered_app (al : list ascii) (l1 l2 : list (Z * ascii * Z)) (q k : nat) :
  registered al (l1 ++ l2) q k =
  match registered al l2 q k with
  | Some w => Some w
  | None => registered al l1 q k
  end.
Proof.
  induction l1 as [| [[q' c] v] l1 IH]; simpl.
  - destruct (registered al l2 q k); reflexivity.
  - rewrite IH. destruct (registered al l2 q k); reflexivity.
Qed.

Lemma registered_row (al pre rest : list ascii) (typed : Z -> Z -> Z)
    (i : Z) (q k : nat) :
  NoDup al ->
  al = pre ++ rest ->
  registered al (row_calls typed i rest (Z.of_nat (length pre))) q k =
  if decide (i = Z.of_nat q /\ (length pre <= k < length al)%nat)
  then Some (typed i (Z.of_nat k)) else None.
Proof.
  intros Hnd. revert pre. induction rest as [| c rest IH]; intros pre Hal; simpl.
  - rewrite decide_False; [reflexivity |].
    rewrite Hal, app_nil_r. lia.
  - replace (Z.of_nat (length pre) + 1) with (Z.of_nat (length (pre ++ [c])))
      by (rewrite length_app; simpl; lia).
    rewrite IH by (rewrite <- app_assoc; exact Hal).
    rewrite length_app. simpl.
    assert (Hc : Spec.SymbolIndex al c = Some (length pre)).
    { apply SymbolIndex_NoDup; [exact Hnd |].
      rewrite Hal. apply list_lookup_middle. reflexivity. }
    assert (Hlt : (length pre < length al)%nat).
    { rewrite Hal, length_app. simpl. lia. }
    rewrite Hc.
    destruct (decide (i = Z.of_nat q /\ (length pre + 1 <= k < length al)%nat))
      as [[Hi Hk] | Hn1].
    + rewrite decide_True by (split; [exact Hi | lia]). reflexivity.
    + destruct (decide (i = Z.of_nat q /\ Some (length pre) = Some k))
        as [[Hi [= <-]] | Hn2].
      * rewrite decide_True by (split; [exact Hi | lia]). reflexivity.
      * rewrite decide_False; [reflexivity |].
        intros [Hi Hk]. destruct (decide (k = length pre)) as [-> | Hne].
        -- apply Hn2. auto.
        -- apply Hn1. split; [exact Hi | lia].
Qed.

Lemma registered_table (al : list ascii) (typed : Z -> Z -> Z)
    (n i : nat) (q k : nat) :
  NoDup al ->
  registered al (table_calls typed al n (Z.of_nat i)) q k =
  if decide ((i <= q < i + n)%nat /\ (k < length al)%nat)
  then Some (typed (Z.of_nat q) (Z.of_nat k)) else None.
Proof.
  intros Hnd. revert i. induction n as [| n IH]; intros i; simpl.
  - rewrite decide_False by lia. reflexivity.
  - rewrite registered_app.
    replace (Z.of_nat i + 1) with (Z.of_nat (S i)) by lia. rewrite IH.
    destruct (decide ((S i <= q < S i + n)%nat /\ (k < length al)%nat))
      as [H1 | H1].
    + rewrite decide_True by lia. reflexivity.
    + pose proof (registered_row al [] al typed (Z.of_nat i) q k Hnd eq_refl)
        as Hrow.
      change (Z.of_nat (length [])) with 0 in Hrow. rewrite Hrow. simpl.
      destruct (decide (Z.of_nat i = Z.of_nat q /\ (0 <= k < length al)%nat))
        as [[Hi Hk] | H2].
      * rewrite decide_True by lia. rewrite Hi. reflexivity.
      * rewrite decide_False by lia. reflexivity.
Qed.

Lemma row_calls_length (typed : Z -> Z -> Z) (i : Z) (cs : list ascii) (j : Z) :
  length (row_calls typed i cs j) = length cs.
Proof. revert j. induction cs as [| c cs IH]; intros j; simpl; auto. Qed.

Lemma table_calls_length (typed : Z -> Z -> Z) (cs : list ascii) (n : nat) (i : Z) :
  length (table_calls typed cs n i) = (n * length cs)%nat.
Proof.
  revert i. induction n as [| n IH]; intros i; simpl; [reflexivity |].
  rewrite length_app, row_calls_length, IH. reflexivity.
Qed.

Lemma row_calls_in_table (d : DFA) (typed : Z -> Z -> Z) (i : Z)
    (cs : list ascii) (j : Z) :
  0 <= i < states d ->
  cs ⊆ alphabet d ->
  Forall (in_table d) (row_calls typed i cs j).
Proof.
  intros Hi. revert j. induction cs as [| c cs IH]; intros j Hcs; simpl.
  - constructor.
  - constructor.
    + split; [exact Hi |]. apply Hcs. left.
    + apply IH. intros x Hx. apply Hcs. right. exact Hx.
Qed.

Lemma table_calls_in_table (d : DFA) (typed : Z -> Z -> Z) (n i : nat) :
  Z.of_nat (i + n) <= states d ->
  Forall (in_table d) (table_calls typed (alphabet d) n (Z.of_nat i)).
Proof.
  revert i. induction n as [| n IH]; intros i Hn; simpl.
  - constructor.
  - apply Forall_app. split.
    + apply row_calls_in_table; [lia | done].
    + replace (Z.of_nat i + 1) with (Z.of_nat (S i)) by lia.
      apply IH. lia.
Qed.

Lemma main_fill_cells (d : DFA) (typed : Z -> Z -> Z) :
  wf d ->
  NoDup (alphabet d) ->
  0 <= characters d ->
  0 <= states d ->
  incompleteCells d = states d * characters d ->
  Int.in_range (states d * characters d) ->
  exists d',
    main_fill (states d) (characters d) (alphabet d) typed d = Ok (tt, d') /\
    wf d' /\
    same_parameters d d' /\
    incompleteCells d' = Int.wrap (states d * characters d -
                                   Z.of_nat (Z.to_nat (states d)) * characters d) /\
    forall q k,
      (q < Z.to_nat (states d))%nat -> (k < Z.to_nat (characters d))%nat ->
      cell d' q k = Some (Some (typed (Z.of_nat q) (Z.of_nat k))).
Proof.
  intros Hwf Hnd Hch Hst Hcnt Hrange.
  assert (Hlen : length (alphabet d) = Z.to_nat (characters d)) by apply Hwf.
  set (ts := table_calls typed (alphabet d) (Z.to_nat (states d)) 0).
  assert (Hts : Forall (in_table d) ts).
  { apply (table_calls_in_table d typed (Z.to_nat (states d)) 0). lia. }
  destruct (addTransitions_calls ts d Hwf ltac:(rewrite Hcnt; exact Hrange) Hts)
    as (d' & H' & Hwf' & Hsame & Hc' & Hcell').
  exists d'. split.
  { unfold main_fill.
    replace (characters d) with (Z.of_nat (length (alphabet d))) at 1 by lia.
    rewrite main_fill_rows_calls. exact H'. }
  split; [exact Hwf' |]. split; [exact Hsame |].
  split.
  { rewrite Hc', Hcnt. unfold ts. rewrite table_calls_length, Hlen.
    rewrite Nat2Z.inj_mul, (Z2Nat.id (characters d)) by lia. reflexivity. }
  intros q k Hq Hk. rewrite Hcell'. unfold ts.
  rewrite (registered_table (alphabet d) typed _ 0 q k Hnd).
  rewrite decide_True by lia. reflexivity.
Qed.

(** X13. The two loops of [main] that read the table, run on an automaton
    with the counter and the unchecked parameters [createDFA] has given it,
    with [main]'s own count of states, count of characters and characters
    being those of the automaton: when the characters are pairwise distinct
    and every number typed is a state of the automaton, all the calls of
    [addTransition] return, the counter ends at zero, every cell holds the
    number typed for it and the table is one [checkString] evaluates
    without a fault. *)
Theorem main_fill_complete (d : DFA) (typed : Z -> Z -> Z) :
  wf d ->
  NoDup (alphabet d) ->
  0 <= characters d ->
  0 <= initialState d < states d ->
  incompleteCells d = states d * characters d ->
  Int.in_range (states d * characters d) ->
  (forall i j, 0 <= i < states d -> 0 <= j < characters d ->
               0 <= typed i j < states d) ->
  exists d',
    main_fill (states d) (characters d) (alphabet d) typed d = Ok (tt, d') /\
    wf d' /\
    same_parameters d d' /\
    incompleteCells d' = 0 /\
    closed d' /\
    forall q k,
      (q < Z.to_nat (states d))%nat -> (k < Z.to_nat (characters d))%nat ->
      cell d' q k = Some (Some (typed (Z.of_nat q) (Z.of_nat k))).
Proof.
  intros Hwf Hnd Hch Hinit Hcnt Hrange Htyped.
  destruct (main_fill_cells d typed Hwf Hnd Hch ltac:(lia) Hcnt Hrange)
    as (d' & Hfill & Hwf' & Hsame & Hc' & Hcells).
  exists d'. split; [exact Hfill |].
  split; [exact Hwf' |]. split; [exact Hsame |].
  split.
  { rewrite Hc', Z2Nat.id, Z.sub_diag by lia. reflexivity. }
  split; [| exact Hcells].
  destruct Hsame as (Hch' & Hst' & Hin' & _).
  destruct Hwf' as (_ & _ & Ht' & Hrows').
  unfold closed. rewrite Hin', Hst'. split; [exact Hinit |].
  apply Forall_lookup. intros q row Hrow.
  apply Forall_lookup. intros k x Hx.
  pose proof (lookup_lt_Some _ _ _ Hrow) as Hq.
  pose proof (lookup_lt_Some _ _ _ Hx) as Hk.
  rewrite (proj1 (Forall_lookup _ _) Hrows' q row Hrow), Hch' in Hk.
  rewrite Ht', Hst' in Hq.
  pose proof (Hcells q k Hq Hk) as Hc. unfold cell in Hc.
  rewrite Hrow in Hc. simpl in Hc. rewrite Hx in Hc. injection Hc as ->.
  eexists. split; [reflexivity |]. apply Htyped; lia.
Qed.

Lemma main_fill_complete_witness :
  exists d',
    main_fill (states mod3_empty) (characters mod3_empty) (alphabet mod3_empty)
      (fun i j => (2 * i + j) `mod` 3) mod3_empty = Ok (tt, d') /\
    wf d' /\
    same_parameters mod3_empty d' /\
    incompleteCells d' = 0 /\
    closed d' /\
    forall q k,
      (q < Z.to_nat (states mod3_empty))%nat ->
      (k < Z.to_nat (characters mod3_empty))%nat ->
      cell d' q k = Some (Some ((2 * Z.of_nat q + Z.of_nat k) `mod` 3)).
Proof.
  apply (main_fill_complete mod3_empty (fun i j => (2 * i + j) `mod` 3)).
  - exact mod3_empty_wf.
  - apply (bool_decide_unpack (NoDup (alphabet mod3_empty))). reflexivity.
  - simpl. lia.
  - simpl. lia.
  - reflexivity.
  - unfold Int.in_range, Int.INT_MIN, Int.INT_MAX. simpl. lia.
  - intros i j _ _. simpl. apply Z.mod_pos_bound. lia.
Defined.



Lemma load_cell_of_cell (d : DFA) (q k : nat) (v : Z) :
  cell d q k = Some (Some v) ->
  load_cell (transitionTable d) (Z.of_nat q) (Z.of_nat k) = Ok v.
Proof.
  unfold cell, load_cell.
  destruct (transitionTable d !! q) as [row |] eqn:Hrow; [| discriminate].
  simpl. intros Hk. rewrite (load_Ok _ q row Hrow). simpl.
  rewrite (load_Ok _ k (Some v) Hk). reflexivity.
Qed.

Lemma typed_run_spec (d : DFA) (typed : Z -> Z -> Z) (syms : list ascii) (q : Z) :
  wf d ->
  (forall i j, 0 <= i < states d -> 0 <= j < characters d ->
               0 <= typed i j < states d) ->
  (forall q k,
     (q < Z.to_nat (states d))%nat -> (k < Z.to_nat (characters d))%nat ->
     cell d q k = Some (Some (typed (Z.of_nat q) (Z.of_nat k)))) ->
  0 <= q < states d ->
  Spec.run d q syms = Ok (typed_run typed (alphabet d) q syms).
Proof.
  intros Hwf Htyped Hcells. revert q.
  induction syms as [| c syms IH]; intros q Hq; simpl; [reflexivity |].
  destruct (Spec.SymbolIndex (alphabet d) c) as [k |] eqn:Hk; [| reflexivity].
  assert (Hlt : (k < Z.to_nat (characters d))%nat).
  { destruct Hwf as (Hcs & _). rewrite <- Hcs.
    apply SymbolIndex_Some in Hk as [Hk _]. eapply lookup_lt_Some, Hk. }
  pose proof (load_cell_of_cell d (Z.to_nat q) k _
                (Hcells (Z.to_nat q) k ltac:(lia) Hlt)) as Hload.
  rewrite Z2Nat.id in Hload by lia. rewrite Hload. simpl.
  apply IH. apply Htyped; lia.
Qed.

(** X15. After the two loops of [main] have read a table of states of the
    automaton over pairwise distinct characters, [checkString] decides the
    language of the automaton that was typed: it returns the code for an
    invalid character when a symbol of the string is not in the alphabet,
    and otherwise 1 or 0 as the state that the typed transitions lead to
    from the initial state is or is not a final state. *)
Theorem main_fill_decides (d : DFA) (typed : Z -> Z -> Z) (inp : list ascii) :
  wf d ->
  NoDup (alphabet d) ->
  0 <= characters d ->
  0 <= initialState d < states d ->
  incompleteCells d = states d * characters d ->
  Int.in_range (states d * characters d) ->
  (forall i j, 0 <= i < states d -> 0 <= j < characters d ->
               0 <= typed i j < states d) ->
  Z.of_nat (strlen inp) <= Int.INT_MAX ->
  exists d',
    main_fill (states d) (characters d) (alphabet d) typed d = Ok (tt, d') /\
    checkString inp d' =
    Ok (match typed_run typed (alphabet d) (initialState d) (symbols inp) with
        | None => ERROR_INVALID_CHARACTER_IN_INPUT
        | Some q => if decide (q ∈ finalStates d) then 1 else 0
        end, d').
Proof.
  intros Hwf Hnd Hch Hinit Hcnt Hrange Htyped Hlen.
  destruct (main_fill_cells d typed Hwf Hnd Hch ltac:(lia) Hcnt Hrange)
    as (d' & Hfill & Hwf' & Hsame & Hz & Hcells).
  rewrite Z2Nat.id, Z.sub_diag in Hz by lia. change (Int.wrap 0) with 0 in Hz.
  exists d'. split; [exact Hfill |].
  destruct Hsame as (Hch' & Hst' & Hin' & _ & Hfs' & Hcs').
  rewrite (checkString_spec d' inp Hwf' Hlen).
  unfold Spec.CheckString. rewrite decide_True by exact Hz.
  unfold Spec.Evaluate.
  rewrite (typed_run_spec d' typed (symbols inp) (initialState d') Hwf').
  - unfold alphabet. rewrite Hcs', Hin', Hfs'. simpl.
    destruct (typed_run typed (characterSet d) (initialState d) (symbols inp))
      as [q |]; [| reflexivity].
    simpl. destruct (decide (q ∈ finalStates d)); reflexivity.
  - rewrite Hst', Hch'. exact Htyped.
  - rewrite Hst', Hch'. exact Hcells.
  - rewrite Hst', Hin'. exact Hinit.
Qed.

Lemma main_fill_decides_witness :
  exists d',
    main_fill (states mod3_empty) (characters mod3_empty) (alphabet mod3_empty)
      (fun i j => (2 * i + j) `mod` 3) mod3_empty = Ok (tt, d') /\
    checkString (cstr "110") d' =
    Ok (match typed_run (fun i j => (2 * i + j) `mod` 3) (alphabet mod3_empty)
                (initialState mod3_empty) (symbols (cstr "110")) with
        | None => ERROR_INVALID_CHARACTER_IN_INPUT
        | Some q => if decide (q ∈ finalStates mod3_empty) then 1 else 0
        end, d').
Proof.
  apply (main_fill_decides mod3_empty (fun i j => (2 * i + j) `mod` 3)).
  - exact mod3_empty_wf.
  - apply (bool_decide_unpack (NoDup (alphabet mod3_empty))). reflexivity.
  - simpl. lia.
  - simpl. lia.
  - reflexivity.
  - unfold Int.in_range, Int.INT_MIN, Int.INT_MAX. simpl. lia.
  - intros i j _ _. simpl. apply Z.mod_pos_bound. lia.
  - vm_compute. discriminate.
Defined.
